(** * Ant Colony Optimization for the open-path TSP (src/algorithms/aco.py)

    A shallow embedding of class [AntColonyOptimization] and the proofs of
    its specified properties.

    Modelling conventions.
    - Python integers (city indices, counts) are [Z]; sequence indexing
      follows Python and numpy: an index [i] with [-len <= i < 0] addresses
      element [len + i], any other index outside [0, len) raises
      [IndexError].
    - numpy floats are modelled by exact rationals [Q]: rounding, overflow
      and the special values produced by a division by zero are outside the
      model; a statement that turns on a quotient or on the range of the
      numbers carries the hypothesis that keeps the source within it.
      [float('inf')], the initial best distance, is the extra value [Inf]
      of type [ext].
    - A Python call either returns or raises: fallible methods return a
      [result].  A method that mutates [self] returns the mutated engine
      also when it raises, as the mutation persists in Python.
    - [np.random.choice] is an external collaborator.  It is a parameter of
      the development ([choice]), threading an explicit generator state. *)

From Stdlib Require Import ZArith QArith Qround Lia Lqa.
From stdpp Require Import gmap list.

Open Scope Z_scope.

(** ** Exceptions and the two small monads *)

Inductive exn : Type :=
| IndexError
| ValueError.

Inductive result (A : Type) : Type :=
| Ok (a : A)
| Raise (e : exn).
Arguments Ok {A} a.
Arguments Raise {A} e.

Definition rbind {A B} (r : result A) (k : A → result B) : result B :=
  match r with
  | Ok a => k a
  | Raise e => Raise e
  end.

(** State and exceptions: the state survives a raise. *)
Definition St (S A : Type) : Type := S → result A * S.

Definition sret {S A} (a : A) : St S A := λ s, (Ok a, s).

Definition sbind {S A B} (m : St S A) (k : A → St S B) : St S B :=
  λ s, match m s with
       | (Ok a, s') => k a s'
       | (Raise e, s') => (Raise e, s')
       end.

Definition lift {S A} (r : result A) : St S A := λ s, (r, s).

Declare Scope py_scope.
Delimit Scope py_scope with py.
Notation "x <- c ;; k" := (rbind c (λ x, k))
  (at level 100, c at next level, right associativity) : py_scope.
Notation "x <~ c ;; k" := (sbind c (λ x, k))
  (at level 100, c at next level, right associativity) : py_scope.
Open Scope py_scope.

(** A [for x in xs] loop over an accumulator, raising at the first failing
    iteration. *)
Fixpoint for_in {A B} (xs : list B) (acc : A) (body : B → A → result A)
  : result A :=
  match xs with
  | [] => Ok acc
  | x :: xs' => acc' <- body x acc;; for_in xs' acc' body
  end.

(** ** Python sequences *)

Definition len {A} (l : list A) : Z := Z.of_nat (length l).

(** [range(n)] *)
Definition range (n : Z) : list Z := seqZ 0 n.

(** The position addressed by index [i] in a sequence of length [n]. *)
Definition norm_index (n i : Z) : option nat :=
  if (0 <=? i) && (i <? n) then Some (Z.to_nat i)
  else if (- n <=? i) && (i <? 0) then Some (Z.to_nat (n + i))
  else None.

(** [l[i]] *)
Definition getitem {A} (l : list A) (i : Z) : result A :=
  match norm_index (len l) i with
  | Some k => match l !! k with
              | Some x => Ok x
              | None => Raise IndexError
              end
  | None => Raise IndexError
  end.

(** [m[i][j]] *)
Definition getitem2 {A} (m : list (list A)) (i j : Z) : result A :=
  row <- getitem m i;; getitem row j.

(** [m[i][j] = x]: the row is fetched, then its cell is assigned. *)
Definition setitem2 {A} (m : list (list A)) (i j : Z) (x : A)
  : result (list (list A)) :=
  match norm_index (len m) i with
  | Some r =>
      match m !! r with
      | Some row =>
          match norm_index (len row) j with
          | Some c => Ok (<[r := <[c := x]> row]> m)
          | None => Raise IndexError
          end
      | None => Raise IndexError
      end
  | None => Raise IndexError
  end.

(** ** Numbers *)

Inductive ext : Type :=
| Real (q : Q)
| Inf.

(** [x < y] on floats, as a test. *)
Definition Qltb (x y : Q) : bool := negb (Qle_bool y x).

(** [d < best] where [d] is a finite length. *)
Definition lt_best (d : Q) (best : ext) : bool :=
  match best with
  | Real b => Qltb d b
  | Inf => true
  end.

Definition ext_le (x y : ext) : Prop :=
  match x, y with
  | _, Inf => True
  | Inf, Real _ => False
  | Real a, Real b => (a <= b)%Q
  end.

Definition ext_lt (x y : ext) : Prop :=
  match x, y with
  | Inf, _ => False
  | Real _, Inf => True
  | Real a, Real b => (a < b)%Q
  end.

(** [sum(xs)] starting from 0, left to right. *)
Definition Qsum (xs : list Q) : Q := fold_left Qplus xs 0%Q.

(** ** The engine *)

Record engine : Type := Engine {
  distance_matrix : list (list Q);
  num_cities : Z;
  num_ants : Z;
  alpha : Q;
  beta : Q;
  evaporation_rate : Q;
  Q_ : Q;
  pheromones : list (list Q);
  best_tour : option (list Z);
  best_distance : ext;
  history : list ext
}.

Definition set_pheromones (self : engine) (p : list (list Q)) : engine :=
  Engine (distance_matrix self) (num_cities self) (num_ants self)
         (alpha self) (beta self) (evaporation_rate self) (Q_ self)
         p (best_tour self) (best_distance self) (history self).

Definition set_best (self : engine) (d : Q) (tour : list Z) : engine :=
  Engine (distance_matrix self) (num_cities self) (num_ants self)
         (alpha self) (beta self) (evaporation_rate self) (Q_ self)
         (pheromones self) (Some tour) (Real d) (history self).

Definition append_history (self : engine) : engine :=
  Engine (distance_matrix self) (num_cities self) (num_ants self)
         (alpha self) (beta self) (evaporation_rate self) (Q_ self)
         (pheromones self) (best_tour self) (best_distance self)
         (history self ++ [best_distance self]).

(** [np.ones((n, n))] *)
Definition ones (n : Z) : list (list Q) :=
  replicate (Z.to_nat n) (replicate (Z.to_nat n) 1%Q).

(** [__init__] (aco.py 25-50): no statement of the constructor raises. *)
Definition __init__ (dm : list (list Q)) (n_ants : Z)
    (a b rho q : Q) : result engine :=
  let n := len dm in
  Ok (Engine dm n n_ants a b rho q (ones n) None Inf []).

(** [calculate_distance] (aco.py 52-65) *)
Definition calculate_distance (self : engine) (tour : list Z) : result Q :=
  for_in (range (len tour - 1)) 0%Q (λ i distance,
    a <- getitem tour i;;
    b <- getitem tour (i + 1);;
    d <- getitem2 (distance_matrix self) a b;;
    Ok (distance + d)%Q).

(** A stateful [for x in xs] loop; the state reached when an iteration
    raises is kept. *)
Fixpoint for_st {S B} (xs : list B) (body : B → St S unit) : St S unit :=
  match xs with
  | [] => sret tt
  | x :: xs' => _ <~ body x;; for_st xs' body
  end.

(** [self.pheromones[a][b] += deposit] *)
Definition add_pheromone (a b : Z) (deposit : Q) : St engine unit :=
  λ self,
    match getitem2 (pheromones self) a b with
    | Ok p =>
        match setitem2 (pheromones self) a b (p + deposit)%Q with
        | Ok m => (Ok tt, set_pheromones self m)
        | Raise e => (Raise e, self)
        end
    | Raise e => (Raise e, self)
    end.

(** [self.pheromones *= (1 - self.evaporation_rate)] *)
Definition evaporate : St engine unit :=
  λ self,
    (Ok tt,
     set_pheromones self
       (map (map (λ p, p * (1 - evaporation_rate self))%Q) (pheromones self))).

(** The deposit of one tour (aco.py 135-138). *)
Definition deposit_tour (tour : list Z) (distance : Q) : St engine unit :=
  λ self,
    let deposit := (Q_ self / distance)%Q in
    for_st (range (len tour - 1)) (λ i,
      a <~ lift (getitem tour i);;
      b <~ lift (getitem tour (i + 1));;
      _ <~ add_pheromone a b deposit;;
      add_pheromone b a deposit) self.

(** [update_pheromones] (aco.py 123-138) *)
Definition update_pheromones (all_tours : list (list Z * Q)) : St engine unit :=
  _ <~ evaporate;;
  for_st all_tours (λ '(tour, distance), deposit_tour tour distance).

Section Engine.

(** The generator state, [np.random.choice(cities, p=probs)] and the
    float power [x ** y]. *)
Context {rng : Type}.
Variable choice : list Z → list Q → St rng Z.
Variable fpow : Q → Q → Q.

(** The loop of [select_next_city] (aco.py 105-111). *)
Definition candidate_weights (self : engine) (current_city : Z)
    (visited : gset Z) (end_city : Z) : result (list (Z * Q)) :=
  for_in (range (num_cities self)) [] (λ city probabilities,
    if bool_decide (city ∉ visited) && bool_decide (city ≠ end_city) then
      p <- getitem2 (pheromones self) current_city city;;
      d <- getitem2 (distance_matrix self) current_city city;;
      let pheromone := fpow p (alpha self) in
      let distance := fpow (1 / d)%Q (beta self) in
      Ok (probabilities ++ [(city, (pheromone * distance)%Q)])
    else Ok probabilities).

(** [select_next_city] (aco.py 93-121) *)
Definition select_next_city (self : engine) (current_city : Z)
    (visited : gset Z) (end_city : Z) : St rng Z :=
  probabilities <~ lift (candidate_weights self current_city visited end_city);;
  match probabilities with
  | [] => sret end_city
  | _ =>
      let cities := map fst probabilities in
      let probs := map snd probabilities in
      let probs := map (λ p, p / Qsum probs)%Q probs in
      choice cities probs
  end.

(** The [while] loop of [construct_solution] (aco.py 83-87).  The guard
    is tested as in the source; [fuel] bounds the number of iterations,
    and the loop stops with the tour built so far if it runs out, which
    does not happen with the fuel [construct_solution] gives
    ([build_tour_fuel]). *)
Fixpoint build_tour (fuel : nat) (self : engine) (end_city : Z)
    (tour : list Z) (visited : gset Z) (current_city : Z)
  : St rng (list Z) :=
  if len tour <? num_cities self - 1 then
    match fuel with
    | O => sret tour
    | S fuel' =>
        next_city <~ select_next_city self current_city visited end_city;;
        build_tour fuel' self end_city (tour ++ [next_city])
                   ({[next_city]} ∪ visited) next_city
    end
  else sret tour.

(** [construct_solution] (aco.py 67-91) *)
Definition construct_solution (self : engine) (start_city end_city : Z)
  : St rng (list Z) :=
  tour <~ build_tour (Z.to_nat (num_cities self)) self end_city
            [start_city] {[start_city]} start_city;;
  sret (tour ++ [end_city]).

(** Running a method that reads [self] and draws random numbers, and a
    method that mutates [self], in the state of a whole call. *)
Definition reading {A} (m : engine → St rng A) : St (engine * rng) A :=
  λ '(self, g), let '(r, g') := m self g in (r, (self, g')).

Definition mutating {A} (m : St engine A) : St (engine * rng) A :=
  λ '(self, g), let '(r, self') := m self in (r, (self', g)).

(** The ants of one generation (aco.py 154-162); [all_tours] is the list
    built so far. *)
Fixpoint ants (n : nat) (start_city end_city : Z)
    (all_tours : list (list Z * Q)) : St (engine * rng) (list (list Z * Q)) :=
  match n with
  | O => sret all_tours
  | S n' =>
      tour <~ reading (λ self, construct_solution self start_city end_city);;
      distance <~ reading (λ self, lift (calculate_distance self tour));;
      let all_tours := all_tours ++ [(tour, distance)] in
      _ <~ mutating (λ self,
             if lt_best distance (best_distance self)
             then (Ok tt, set_best self distance tour)
             else (Ok tt, self));;
      ants n' start_city end_city all_tours
  end.

(** [np.mean(xs)]; of an empty list numpy returns nan with a warning, the
    model 0. *)
Definition mean (xs : list Q) : Q := (Qsum xs / inject_Z (len xs))%Q.

(** [run_iteration] (aco.py 140-171) *)
Definition run_iteration (start_city end_city : Z)
  : St (engine * rng) (option (list Z) * ext * Q) :=
  n <~ reading (λ self, sret (Z.to_nat (num_ants self)));;
  all_tours <~ ants n start_city end_city [];;
  _ <~ mutating (update_pheromones all_tours);;
  _ <~ mutating (λ self, (Ok tt, append_history self));;
  let avg_distance := mean (map snd all_tours) in
  reading (λ self, sret (best_tour self, best_distance self, avg_distance)).

End Engine.

(** ** A concrete random source

    A seedable generator and a roulette wheel over it: one instance of
    [np.random.choice(cities, p=probs)], which rejects an empty population,
    a probability vector of another size, a negative probability and
    probabilities that do not sum to 1, before drawing. *)

Definition lcg (g : Z) : Z := (1103515245 * g + 12345) mod 2147483648.

Definition uniform (g : Z) : Q := lcg g # 2147483648.

Fixpoint roulette (cities : list Z) (probs : list Q) (u : Q) : option Z :=
  match cities, probs with
  | c :: cs, p :: ps => if Qltb u p then Some c else roulette cs ps (u - p)%Q
  | _, _ => None
  end.

Definition np_choice (cities : list Z) (probs : list Q) : St Z Z :=
  λ g,
    if Nat.eqb (length cities) 0 then (Raise ValueError, g)
    else if negb (Nat.eqb (length cities) (length probs)) then (Raise ValueError, g)
    else if negb (forallb (Qle_bool 0) probs) then (Raise ValueError, g)
    else if negb (Qeq_bool (Qsum probs) 1) then (Raise ValueError, g)
    else match roulette cities probs (uniform g) with
         | Some c => (Ok c, lcg g)
         | None => (Raise ValueError, lcg g)
         end.

(** [x ** y] for an exponent that is a whole number. *)
Definition pow_int (x y : Q) : Q := Qpower x (Qfloor y).

(** * Properties *)

(** ** Sequences *)

Lemma len_app {A} (l1 l2 : list A) : len (l1 ++ l2) = len l1 + len l2.
Proof. unfold len. rewrite length_app. lia. Qed.

Lemma len_nonneg {A} (l : list A) : 0 ≤ len l.
Proof. unfold len. lia. Qed.

Lemma norm_index_range n i :
  0 ≤ i < n → norm_index n i = Some (Z.to_nat i).
Proof.
  intros [H0 Hn]. unfold norm_index.
  apply Z.leb_le in H0. apply Z.ltb_lt in Hn. by rewrite H0, Hn.
Qed.

Lemma norm_index_high n i : 0 ≤ n ≤ i → norm_index n i = None.
Proof.
  intros [H0 Hn]. unfold norm_index.
  assert ((i <? n) = false) as -> by lia.
  assert ((i <? 0) = false) as -> by lia.
  by rewrite !andb_false_r.
Qed.

Lemma norm_index_bound n i k : norm_index n i = Some k → (Z.of_nat k < n)%Z.
Proof.
  unfold norm_index.
  destruct (0 <=? i) eqn:H0, (i <? n) eqn:H1; simpl;
    [intros [= <-]; lia| | |];
    (destruct (- n <=? i) eqn:H2, (i <? 0) eqn:H3; simpl; [|done..];
     intros [= <-]; lia).
Qed.

Lemma getitem_range {A} (l : list A) i x :
  0 ≤ i → l !! Z.to_nat i = Some x → getitem l i = Ok x.
Proof.
  intros H0 Hx. unfold getitem.
  rewrite norm_index_range, Hx; [done|].
  apply lookup_lt_Some in Hx. unfold len. lia.
Qed.

Lemma getitem_middle {A} (pre : list A) x suf :
  getitem (pre ++ x :: suf) (len pre) = Ok x.
Proof.
  apply getitem_range; [apply len_nonneg|].
  unfold len. rewrite Nat2Z.id. by apply list_lookup_middle.
Qed.

(** ** Tour length (C8) *)

(** The length of a path as the specification words it: the sum of the
    matrix entries of its consecutive pairs. *)
Fixpoint path_length (dm : list (list Q)) (tour : list Z) : result Q :=
  match tour with
  | a :: rest =>
      match rest with
      | b :: _ =>
          d <- getitem2 dm a b;;
          s <- path_length dm rest;;
          Ok (d + s)%Q
      | [] => Ok 0%Q
      end
  | [] => Ok 0%Q
  end.

(** Equal outcomes, the returned numbers being compared as rationals. *)
Definition res_equiv (r1 r2 : result Q) : Prop :=
  match r1, r2 with
  | Ok a, Ok b => (a == b)%Q
  | Raise e1, Raise e2 => e1 = e2
  | _, _ => False
  end.

Lemma res_equiv_trans r1 r2 r3 : res_equiv r1 r2 → res_equiv r2 r3 → res_equiv r1 r3.
Proof.
  destruct r1, r2, r3; simpl; try done.
  - intros H1 H2. by rewrite H1.
  - congruence.
Qed.

Lemma path_length_cons dm a b rest :
  path_length dm (a :: b :: rest)
  = (d <- getitem2 dm a b;; s <- path_length dm (b :: rest);; Ok (d + s)%Q).
Proof. reflexivity. Qed.

Lemma calculate_distance_loop dm pre a suf acc :
  res_equiv
    (for_in (seqZ (len pre) (len (a :: suf) - 1)) acc (λ i distance,
       x <- getitem (pre ++ a :: suf) i;;
       y <- getitem (pre ++ a :: suf) (i + 1);;
       d <- getitem2 dm x y;;
       Ok (distance + d)%Q))
    (s <- path_length dm (a :: suf);; Ok (acc + s)%Q).
Proof.
  revert pre a acc. induction suf as [|b suf IH]; intros pre a acc.
  - unfold res_equiv; simpl. ring.
  - rewrite seqZ_cons by (unfold len; simpl; lia).
    cbn [for_in]. rewrite getitem_middle. cbn [rbind].
    replace (pre ++ a :: b :: suf) with ((pre ++ [a]) ++ b :: suf)
      by (by rewrite <- app_assoc).
    replace (len pre + 1) with (len (pre ++ [a])) by (rewrite len_app; done).
    rewrite getitem_middle, path_length_cons. cbn [rbind].
    destruct (getitem2 dm a b) as [d|e]; cbn [rbind]; [|done].
    replace (Z.succ (len pre)) with (len (pre ++ [a])) by (rewrite len_app; unfold len; simpl; lia).
    replace (Z.pred (len (a :: b :: suf) - 1)) with (len (b :: suf) - 1)
      by (unfold len; simpl; lia).
    eapply res_equiv_trans; [apply IH|].
    destruct (path_length dm (b :: suf)) as [s|e];
      unfold res_equiv; simpl; [ring|done].
Qed.

Lemma calculate_distance_path_length (self : engine) (tour : list Z) :
  res_equiv (calculate_distance self tour)
            (path_length (distance_matrix self) tour).
Proof.
  destruct tour as [|a suf]; [done|].
  unfold calculate_distance.
  pose proof (calculate_distance_loop (distance_matrix self) [] a suf 0%Q) as H.
  eapply res_equiv_trans; [exact H|].
  destruct (path_length (distance_matrix self) (a :: suf)) as [s|e];
    unfold res_equiv; simpl; [ring|done].
Qed.

(** C8. [calculate_distance] returns the sum of the distance-matrix entries
    of the consecutive pairs of the tour (and raises what the first failing
    lookup raises); on a tour of one city it returns 0. *)
Theorem calculate_distance_sum (self : engine) (tour : list Z) (c : Z) :
  res_equiv (calculate_distance self tour)
            (path_length (distance_matrix self) tour)
  ∧ calculate_distance self [c] = Ok 0%Q.
Proof. split; [apply calculate_distance_path_length|done]. Qed.

(** ** Next-city selection (C7) *)




Section Selection.

Context {rng : Type}.
Variable choice : list Z → list Q → St rng Z.
Variable fpow : Q → Q → Q.

(** The cities a step may move to: unvisited and not the end city, in
    increasing order. *)
Definition candidates (self : engine) (visited : gset Z) (end_city : Z)
  : list Z :=
  filter (λ city, (city ∉ visited) ∧ city ≠ end_city) (range (num_cities self)).

(** The weight of a move, as the specification words it. *)
Definition weight (self : engine) (current_city city : Z) : result Q :=
  p <- getitem2 (pheromones self) current_city city;;
  d <- getitem2 (distance_matrix self) current_city city;;
  Ok (fpow p (alpha self) * fpow (1 / d) (beta self))%Q.

Lemma candidate_loop_ok self cur (visited : gset Z) end_city xs ws acc :
  Forall2 (λ c w, weight self cur c = Ok w)
          (filter (λ city, (city ∉ visited) ∧ city ≠ end_city) xs) ws →
  for_in xs acc (λ city probabilities,
    if bool_decide (city ∉ visited) && bool_decide (city ≠ end_city) then
      p <- getitem2 (pheromones self) cur city;;
      d <- getitem2 (distance_matrix self) cur city;;
      let pheromone := fpow p (alpha self) in
      let distance := fpow (1 / d)%Q (beta self) in
      Ok (probabilities ++ [(city, (pheromone * distance)%Q)])
    else Ok probabilities)
  = Ok (acc ++ zip (filter (λ city, (city ∉ visited) ∧ city ≠ end_city) xs) ws).
Proof.
  revert ws acc. induction xs as [|x xs IH]; intros ws acc Hws.
  - simpl. by rewrite app_nil_r.
  - cbn [for_in]. rewrite filter_cons in *.
    destruct (decide ((x ∉ visited) ∧ x ≠ end_city)) as [[Hv He]|Hn].
    + rewrite (bool_decide_eq_true_2 _ Hv), (bool_decide_eq_true_2 _ He).
      cbn [andb].
      inversion Hws as [|? w ? ws' Hw Hrest]; subst.
      unfold weight in Hw.
      destruct (getitem2 (pheromones self) cur x) as [p|]; [|done].
      destruct (getitem2 (distance_matrix self) cur x) as [d|]; [|done].
      cbn [rbind] in *. injection Hw as <-.
      rewrite (IH _ _ Hrest). cbn [zip zip_with]. by rewrite <- app_assoc.
    + assert (bool_decide (x ∉ visited) && bool_decide (x ≠ end_city) = false)
        as ->.
      { apply andb_false_iff.
        destruct (decide (x ∉ visited)) as [Hv|Hv].
        - right. apply bool_decide_eq_false_2. intros He. by apply Hn.
        - left. by apply bool_decide_eq_false_2. }
      cbn [rbind]. by apply IH.
Qed.

Lemma candidate_weights_ok self cur visited end_city ws :
  Forall2 (λ c w, weight self cur c = Ok w) (candidates self visited end_city) ws →
  candidate_weights fpow self cur visited end_city
  = Ok (zip (candidates self visited end_city) ws).
Proof. intros H. unfold candidate_weights. by rewrite (candidate_loop_ok _ _ _ _ _ ws []). Qed.



End Selection.

(** ** Tour construction (C1, C10) *)

Section Construction.

Context {rng : Type}.
Variable choice : list Z → list Q → St rng Z.
Variable fpow : Q → Q → Q.

(** What is assumed of [np.random.choice]: a returned city is one of the
    population it was given. *)
Hypothesis choice_elem :
  ∀ cities probs g c g', choice cities probs g = (Ok c, g') → c ∈ cities.

Variable self : engine.
Variables start_city end_city : Z.

Lemma candidate_loop_fst cur (visited : gset Z) xs acc probs :
  for_in xs acc (λ city probabilities,
    if bool_decide (city ∉ visited) && bool_decide (city ≠ end_city) then
      p <- getitem2 (pheromones self) cur city;;
      d <- getitem2 (distance_matrix self) cur city;;
      let pheromone := fpow p (alpha self) in
      let distance := fpow (1 / d)%Q (beta self) in
      Ok (probabilities ++ [(city, (pheromone * distance)%Q)])
    else Ok probabilities) = Ok probs →
  probs.*1 = acc.*1 ++ filter (λ city, (city ∉ visited) ∧ city ≠ end_city) xs.
Proof.
  revert acc. induction xs as [|x xs IH]; intros acc.
  - simpl. intros [= <-]. by rewrite app_nil_r.
  - cbn [for_in]. rewrite filter_cons.
    destruct (decide ((x ∉ visited) ∧ x ≠ end_city)) as [[Hv He]|Hn].
    + rewrite (bool_decide_eq_true_2 _ Hv), (bool_decide_eq_true_2 _ He).
      cbn [andb].
      destruct (getitem2 (pheromones self) cur x) as [p|]; [|done].
      destruct (getitem2 (distance_matrix self) cur x) as [d|]; [|done].
      cbn [rbind]. intros H. rewrite (IH _ H), fmap_app. simpl.
      by rewrite <- app_assoc.
    + assert (bool_decide (x ∉ visited) && bool_decide (x ≠ end_city) = false)
        as ->.
      { apply andb_false_iff.
        destruct (decide (x ∉ visited)) as [Hv|Hv].
        - right. apply bool_decide_eq_false_2. intros He. by apply Hn.
        - left. by apply bool_decide_eq_false_2. }
      cbn [rbind]. apply IH.
Qed.

Lemma candidate_weights_fst cur visited probs :
  candidate_weights fpow self cur visited end_city = Ok probs →
  probs.*1 = candidates self visited end_city.
Proof. intros H. by apply candidate_loop_fst in H. Qed.

(** The city returned by a step is a candidate, or the end city through
    the fallback when there is none. *)
Lemma select_next_city_elem cur visited g c g' :
  select_next_city choice fpow self cur visited end_city g = (Ok c, g') →
  (candidates self visited end_city = [] ∧ c = end_city ∧ g' = g)
  ∨ c ∈ candidates self visited end_city.
Proof.
  unfold select_next_city, sbind, lift.
  destruct (candidate_weights fpow self cur visited end_city)
    as [probs|] eqn:Hw; [|done].
  apply candidate_weights_fst in Hw.
  destruct probs as [|pw rest].
  - intros [= <- <-]. left. by rewrite <- Hw.
  - intros Hc. right. rewrite <- Hw. eapply choice_elem, Hc.
Qed.

(** The states of the [while] loop: on entry, and after each iteration
    that ran because the guard held and the selection returned. *)
Inductive loop_reach (g0 : rng) : list Z → gset Z → Z → rng → Prop :=
| reach_entry :
    loop_reach g0 [start_city] {[start_city]} start_city g0
| reach_iter tour visited cur g next_city g' :
    loop_reach g0 tour visited cur g →
    len tour < num_cities self - 1 →
    select_next_city choice fpow self cur visited end_city g
    = (Ok next_city, g') →
    loop_reach g0 (tour ++ [next_city]) ({[next_city]} ∪ visited) next_city g'.

Record tour_inv (tour : list Z) (visited : gset Z) : Prop := {
  inv_nodup : NoDup tour;
  inv_visited : ∀ c, c ∈ visited ↔ c ∈ tour;
  inv_range : ∀ c, c ∈ tour → 0 ≤ c < num_cities self;
  inv_end : end_city ∉ tour;
  inv_head : head tour = Some start_city
}.

(** Pigeonhole: while fewer than N-1 cities are visited, some city other
    than the end city is unvisited. *)
Lemma candidates_nonempty (tour : list Z) (visited : gset Z) :
  (∀ c, c ∈ visited → c ∈ tour) →
  len tour < num_cities self - 1 →
  candidates self visited end_city ≠ [].
Proof.
  intros Hvis Hlen Hnil.
  assert (range (num_cities self) ⊆+ end_city :: tour) as Hsub.
  { apply NoDup_submseteq; [apply NoDup_seqZ|].
    intros c Hc.
    destruct (decide (c = end_city)) as [->|Hne]; [left|].
    destruct (decide (c ∈ visited)) as [Hv|Hv]; [right; by apply Hvis|].
    exfalso. eapply (filter_nil_not_elem_of _ _ c Hnil); [|exact Hc]. done. }
  apply submseteq_length in Hsub. unfold range in Hsub.
  rewrite length_seqZ in Hsub. unfold len in Hlen. simpl in Hsub. lia.
Qed.

Lemma tour_inv_entry :
  0 ≤ start_city < num_cities self → start_city ≠ end_city →
  tour_inv [start_city] {[start_city]}.
Proof.
  intros Hs Hne. split.
  - apply NoDup_singleton.
  - intros c. by rewrite elem_of_singleton, list_elem_of_singleton.
  - intros c Hc. apply list_elem_of_singleton in Hc. by subst.
  - intros Hc. apply list_elem_of_singleton in Hc. by subst.
  - done.
Qed.

Lemma tour_inv_step tour visited c :
  tour_inv tour visited →
  c ∈ candidates self visited end_city →
  tour_inv (tour ++ [c]) ({[c]} ∪ visited).
Proof.
  intros [Hnd Hvis Hrg Hend Hhd] Hc.
  apply list_elem_of_filter in Hc as [[Hcv Hce] Hcr].
  apply elem_of_seqZ in Hcr.
  split.
  - apply NoDup_app. split_and!; [done| |apply NoDup_singleton].
    intros x Hx Hxc. apply list_elem_of_singleton in Hxc. subst.
    by apply Hcv, Hvis.
  - intros x. rewrite elem_of_union, elem_of_singleton, elem_of_app,
      list_elem_of_singleton, Hvis. tauto.
  - intros x Hx. apply elem_of_app in Hx as [Hx|Hx]; [by apply Hrg|].
    apply list_elem_of_singleton in Hx. subst. lia.
  - intros Hx. apply elem_of_app in Hx as [Hx|Hx]; [done|].
    apply list_elem_of_singleton in Hx. by subst.
  - destruct tour; [done|]. done.
Qed.

Lemma loop_reach_inv g0 tour visited cur g :
  0 ≤ start_city < num_cities self → start_city ≠ end_city →
  loop_reach g0 tour visited cur g → tour_inv tour visited.
Proof.
  intros Hs Hne. induction 1 as [|tour visited cur g c g' _ IH Hlen Hsel].
  - by apply tour_inv_entry.
  - apply tour_inv_step; [done|].
    apply select_next_city_elem in Hsel as [[Hnil _]|Hc]; [|done].
    exfalso. eapply candidates_nonempty; [|exact Hlen|exact Hnil].
    intros x. by apply IH.
Qed.

(** A tour that satisfies the invariant holds at most N-1 cities. *)
Lemma tour_inv_length tour visited :
  0 ≤ end_city < num_cities self →
  tour_inv tour visited → len tour ≤ num_cities self - 1.
Proof.
  intros He [Hnd _ Hrg Hend _].
  assert (end_city :: tour ⊆+ range (num_cities self)) as Hsub.
  { apply NoDup_submseteq.
    - by apply NoDup_cons.
    - intros c Hc. apply elem_of_seqZ.
      apply elem_of_cons in Hc as [->|Hc]; [lia|]. apply Hrg in Hc. lia. }
  apply submseteq_length in Hsub. unfold range in Hsub.
  rewrite length_seqZ in Hsub. unfold len. simpl in Hsub. lia.
Qed.

(** The loop function walks [loop_reach] and, given enough fuel, stops
    only when the guard fails. *)
Lemma build_tour_reach fuel g0 tour visited cur g body g' :
  loop_reach g0 tour visited cur g →
  (num_cities self - 1 - len tour ≤ Z.of_nat fuel) →
  build_tour choice fpow fuel self end_city tour visited cur g = (Ok body, g') →
  ∃ visited' cur',
    loop_reach g0 body visited' cur' g' ∧ ¬ len body < num_cities self - 1.
Proof.
  revert tour visited cur g.
  induction fuel as [|fuel IH]; intros tour visited cur g Hreach Hfuel;
    cbn [build_tour]; destruct (len tour <? num_cities self - 1) eqn:Hguard.
  - lia.
  - intros [= <- <-]. exists visited, cur. split; [done|lia].
  - unfold sbind at 1.
    destruct (select_next_city choice fpow self cur visited end_city g)
      as [[c|e] g1] eqn:Hsel; [|done].
    intros Hb. eapply IH; [| |exact Hb].
    + eapply reach_iter; [done|lia|done].
    + rewrite len_app. unfold len at 2. simpl. lia.
  - intros [= <- <-]. exists visited, cur. split; [done|lia].
Qed.

(** The fuel is enough: more fuel does not change the outcome. *)
Lemma build_tour_fuel fuel fuel' tour visited cur g :
  (num_cities self - 1 - len tour ≤ Z.of_nat fuel) →
  (num_cities self - 1 - len tour ≤ Z.of_nat fuel') →
  build_tour choice fpow fuel self end_city tour visited cur g
  = build_tour choice fpow fuel' self end_city tour visited cur g.
Proof.
  revert fuel' tour visited cur g.
  induction fuel as [|fuel IH]; intros [|fuel'] tour visited cur g H1 H2;
    cbn [build_tour]; destruct (len tour <? num_cities self - 1) eqn:Hguard;
    try done; try lia.
  unfold sbind.
  destruct (select_next_city choice fpow self cur visited end_city g)
    as [[c|e] g1]; [|done].
  apply IH; rewrite len_app; unfold len at 2; simpl; lia.
Qed.

Lemma construct_solution_reach g tour g' :
  construct_solution choice fpow self start_city end_city g = (Ok tour, g') →
  ∃ body visited cur,
    loop_reach g body visited cur g' ∧ ¬ len body < num_cities self - 1
    ∧ tour = body ++ [end_city].
Proof.
  unfold construct_solution, sbind at 1.
  destruct (build_tour _ _ _ _ _ _ _ _ g) as [[body|e] g1] eqn:Hb; [|done].
  intros [= <- <-].
  apply (build_tour_reach _ g) in Hb as (visited & cur & Hr & Hg).
  - by exists body, visited, cur.
  - constructor.
  - unfold len. simpl. lia.
Qed.

Lemma filter_eq_absent (x : Z) (l : list Z) :
  x ∉ l → filter (λ c, c = x) l = [].
Proof.
  induction l as [|y l IH]; [done|].
  intros Hx. apply not_elem_of_cons in Hx as [Hxy Hx].
  rewrite filter_cons_False by congruence. by apply IH.
Qed.

(** C10. With at least two cities and distinct valid end points, at
    every call of [select_next_city] made by the loop of
    [construct_solution] there is a candidate, the fallback branch is
    not taken and the city returned is not the end city; the end city
    enters the tour by the final append only: it is the last element of
    the returned tour and occurs in it once. *)
Theorem fallback_never_taken :
  2 ≤ num_cities self →
  0 ≤ start_city < num_cities self →
  0 ≤ end_city < num_cities self →
  start_city ≠ end_city →
  (∀ g0 tour visited cur g,
     loop_reach g0 tour visited cur g →
     len tour < num_cities self - 1 →
     candidates self visited end_city ≠ []
     ∧ candidate_weights fpow self cur visited end_city ≠ Ok []
     ∧ ∀ next_city g',
         select_next_city choice fpow self cur visited end_city g
         = (Ok next_city, g') →
         next_city ≠ end_city)
  ∧ (∀ g tour g',
       construct_solution choice fpow self start_city end_city g
       = (Ok tour, g') →
       last tour = Some end_city
       ∧ length (filter (λ c, c = end_city) tour) = 1%nat
       ∧ ∃ body, tour = body ++ [end_city] ∧ end_city ∉ body).
Proof.
  intros _ Hs He Hne. split.
  - intros g0 tour visited cur g Hreach Hlen.
    pose proof (loop_reach_inv _ _ _ _ _ Hs Hne Hreach) as Hinv.
    assert (candidates self visited end_city ≠ []) as Hcand.
    { eapply candidates_nonempty; [|exact Hlen]. intros c. by apply Hinv. }
    split_and!; [done| |].
    + intros Hw. apply candidate_weights_fst in Hw. by rewrite <- Hw in Hcand.
    + intros c g' Hsel.
      apply select_next_city_elem in Hsel as [[Hnil _]|Hc]; [done|].
      apply list_elem_of_filter in Hc. tauto.
  - intros g tour g' Hc.
    apply construct_solution_reach in Hc as (body & visited & cur & Hr & _ & ->).
    pose proof (loop_reach_inv _ _ _ _ _ Hs Hne Hr) as Hinv.
    split_and!.
    + apply last_snoc.
    + rewrite filter_app, filter_eq_absent by apply Hinv.
      by rewrite filter_cons_True.
    + exists body. split; [done|apply Hinv].
Qed.

(** C1. For valid and distinct end points, a tour returned by
    [construct_solution] is a permutation of the N city indices
    [0 .. N-1] without repetition, that starts at the start city and
    whose element N-1 is the end city. *)
Theorem construct_solution_permutation (g : rng) (tour : list Z) (g' : rng) :
  0 ≤ start_city < num_cities self →
  0 ≤ end_city < num_cities self →
  start_city ≠ end_city →
  construct_solution choice fpow self start_city end_city g = (Ok tour, g') →
  tour ≡ₚ range (num_cities self)
  ∧ NoDup tour
  ∧ len tour = num_cities self
  ∧ getitem tour 0 = Ok start_city
  ∧ getitem tour (num_cities self - 1) = Ok end_city.
Proof.
  intros Hs He Hne Hc.
  apply construct_solution_reach in Hc as (body & visited & cur & Hr & Hg & ->).
  pose proof (loop_reach_inv _ _ _ _ _ Hs Hne Hr) as Hinv.
  pose proof (tour_inv_length _ _ He Hinv) as Hle.
  assert (len body = num_cities self - 1) as Hlen by lia.
  destruct Hinv as [Hnd Hvis Hrg Hend Hhd].
  assert (NoDup (body ++ [end_city])) as Hnd'.
  { apply NoDup_app. split_and!; [done| |apply NoDup_singleton].
    intros x Hx Hxe. apply list_elem_of_singleton in Hxe. by subst. }
  assert (len (body ++ [end_city]) = num_cities self) as Hlen'.
  { rewrite len_app. unfold len at 2. simpl. lia. }
  split_and!; [|done|done| |].
  - apply submseteq_length_Permutation.
    + apply NoDup_submseteq; [done|].
      intros c Hc. apply elem_of_seqZ.
      apply elem_of_app in Hc as [Hc|Hc]; [apply Hrg in Hc; lia|].
      apply list_elem_of_singleton in Hc. subst. lia.
    + unfold range. rewrite length_seqZ. unfold len in Hlen'. lia.
  - destruct body as [|c body]; [done|]. simpl in Hhd. by simplify_eq.
  - rewrite <- Hlen. apply getitem_middle.
Qed.

End Construction.

(** ** The pheromone matrix *)

(** The cell at row [r] and column [c], by position. *)
Definition entry (P : list (list Q)) (r c : nat) : option Q :=
  P !! r ≫= λ row, row !! c.

Definition square (n : nat) (P : list (list Q)) : Prop :=
  length P = n ∧ ∀ row, row ∈ P → length row = n.

(** The matrix with cell [(r, c)] replaced. *)
Definition mset (P : list (list Q)) (r c : nat) (x : Q) : list (list Q) :=
  match P !! r with
  | Some row => <[r := <[c := x]> row]> P
  | None => P
  end.

Lemma norm_index_lt n i k :
  norm_index (Z.of_nat n) i = Some k → (k < n)%nat.
Proof. intros H. apply norm_index_bound in H. lia. Qed.

Lemma square_entry n P r c :
  square n P → (r < n)%nat → (c < n)%nat → is_Some (entry P r c).
Proof.
  intros [Hl Hrows] Hr Hc. unfold entry.
  destruct (P !! r) as [row|] eqn:Hrow.
  - simpl. apply lookup_lt_is_Some.
    rewrite (Hrows row); [done|]. by eapply list_elem_of_lookup_2.
  - apply lookup_ge_None in Hrow. lia.
Qed.

Lemma square_ones n : 0 ≤ n → square (Z.to_nat n) (ones n).
Proof.
  intros _. unfold ones. split.
  - apply length_replicate.
  - intros row Hrow. apply elem_of_replicate in Hrow as [-> _].
    apply length_replicate.
Qed.

Lemma entry_ones n r c v : entry (ones n) r c = Some v → v = 1%Q.
Proof.
  unfold entry, ones. intros H.
  destruct (replicate (Z.to_nat n) (replicate (Z.to_nat n) 1%Q) !! r)
    as [row|] eqn:Hrow; [|done].
  apply lookup_replicate in Hrow as [-> _]. simpl in H.
  by apply lookup_replicate in H as [-> _].
Qed.

Lemma square_mset n P r c x : square n P → square n (mset P r c x).
Proof.
  intros [Hl Hrows]. unfold mset.
  destruct (P !! r) as [row|] eqn:Hrow; [|done].
  split.
  - by rewrite length_insert.
  - intros row' Hin. apply list_elem_of_lookup in Hin as [k Hk].
    destruct (decide (k = r)) as [->|Hne].
    + rewrite list_lookup_insert_eq in Hk by (by eapply lookup_lt_Some).
      injection Hk as <-. rewrite length_insert.
      apply Hrows. by eapply list_elem_of_lookup_2.
    + rewrite list_lookup_insert_ne in Hk by done.
      apply Hrows. by eapply list_elem_of_lookup_2.
Qed.

Lemma entry_mset_eq P r c x :
  is_Some (entry P r c) → entry (mset P r c x) r c = Some x.
Proof.
  unfold entry, mset. intros [v Hv].
  destruct (P !! r) as [row|] eqn:Hrow; [|done]. simpl in Hv.
  rewrite list_lookup_insert_eq by (by eapply lookup_lt_Some). simpl.
  apply list_lookup_insert_eq. by eapply lookup_lt_Some.
Qed.

Lemma entry_mset_ne P r c x i j :
  (i, j) ≠ (r, c) → entry (mset P r c x) i j = entry P i j.
Proof.
  unfold entry, mset. intros Hne.
  destruct (P !! r) as [row|] eqn:Hrow; [|done].
  destruct (decide (i = r)) as [->|Hi].
  - rewrite list_lookup_insert_eq by (by eapply lookup_lt_Some).
    rewrite Hrow. simpl. apply list_lookup_insert_ne. congruence.
  - by rewrite list_lookup_insert_ne.
Qed.

Lemma entry_mset P r c x i j :
  is_Some (entry P r c) →
  entry (mset P r c x) i j
  = if decide ((i, j) = (r, c)) then Some x else entry P i j.
Proof.
  intros Hs. case_decide as H.
  - injection H as -> ->. by apply entry_mset_eq.
  - by apply entry_mset_ne.
Qed.

(** Indexing a square matrix: both indices are normalised against the
    same size. *)
Lemma getitem2_square n P i j :
  square n P →
  getitem2 P i j
  = match norm_index (Z.of_nat n) i, norm_index (Z.of_nat n) j with
    | Some r, Some c =>
        match entry P r c with
        | Some v => Ok v
        | None => Raise IndexError
        end
    | _, _ => Raise IndexError
    end.
Proof.
  intros [Hl Hrows]. unfold getitem2, getitem at 1, len. rewrite Hl.
  destruct (norm_index (Z.of_nat n) i) as [r|] eqn:Hi; [|done].
  unfold entry.
  destruct (P !! r) as [row|] eqn:Hrow; simpl.
  - unfold getitem, len. rewrite (Hrows row) by (by eapply list_elem_of_lookup_2).
    destruct (norm_index (Z.of_nat n) j) as [c|]; [|done]. done.
  - by destruct (norm_index (Z.of_nat n) j).
Qed.

Lemma setitem2_square n P i j x r c :
  square n P →
  norm_index (Z.of_nat n) i = Some r →
  norm_index (Z.of_nat n) j = Some c →
  setitem2 P i j x = Ok (mset P r c x).
Proof.
  intros [Hl Hrows] Hi Hj. unfold setitem2, mset, len. rewrite Hl, Hi.
  pose proof (norm_index_lt _ _ _ Hi) as Hr.
  destruct (P !! r) as [row|] eqn:Hrow.
  - rewrite (Hrows row) by (by eapply list_elem_of_lookup_2). by rewrite Hj.
  - apply lookup_ge_None in Hrow. lia.
Qed.

Lemma add_pheromone_square n self i j dep :
  square n (pheromones self) →
  add_pheromone i j dep self
  = match norm_index (Z.of_nat n) i, norm_index (Z.of_nat n) j with
    | Some r, Some c =>
        match entry (pheromones self) r c with
        | Some v =>
            (Ok tt, set_pheromones self (mset (pheromones self) r c (v + dep)))
        | None => (Raise IndexError, self)
        end
    | _, _ => (Raise IndexError, self)
    end.
Proof.
  intros Hsq. unfold add_pheromone. rewrite (getitem2_square n) by done.
  destruct (norm_index (Z.of_nat n) i) as [r|] eqn:Hi; [|done].
  destruct (norm_index (Z.of_nat n) j) as [c|] eqn:Hj; [|done].
  destruct (entry (pheromones self) r c) as [v|]; [|done].
  by rewrite (setitem2_square n _ _ _ _ r c).
Qed.

(** ** Symmetry and sign of the pheromone matrix (C3) *)

Record pher_inv (n : nat) (P : list (list Q)) : Prop := {
  pinv_square : square n P;
  pinv_sym : ∀ r c, entry P r c = entry P c r;
  pinv_nonneg : ∀ r c v, entry P r c = Some v → (0 <= v)%Q
}.

(** Only the pheromone matrix differs between two engines. *)
Definition frame (self self' : engine) : Prop :=
  self' = set_pheromones self (pheromones self').

Lemma frame_refl self : frame self self.
Proof. by destruct self. Qed.

Lemma frame_trans e1 e2 e3 : frame e1 e2 → frame e2 e3 → frame e1 e3.
Proof. unfold frame. intros H1 ->. by rewrite H1 at 1. Qed.

Lemma frame_set self P : frame self (set_pheromones self P).
Proof. done. Qed.

Lemma entry_map (f : Q → Q) P r c :
  entry (map (map f) P) r c = f <$> entry P r c.
Proof.
  unfold entry. change (map (map f) P) with (map f <$> P).
  rewrite list_lookup_fmap. destruct (P !! r) as [row|]; [|done]. simpl.
  change (map f row) with (f <$> row). by rewrite list_lookup_fmap.
Qed.

Lemma square_map (f : Q → Q) n P : square n P → square n (map (map f) P).
Proof.
  intros [Hl Hrows]. split.
  - by rewrite length_map.
  - intros row Hrow. change (map (map f) P) with (map f <$> P) in Hrow.
    apply list_elem_of_fmap in Hrow as (row' & -> & Hin).
    rewrite length_map. by apply Hrows.
Qed.

Lemma lookup_replicate_decide {A} (m k : nat) (x : A) :
  replicate m x !! k = if decide (k < m)%nat then Some x else None.
Proof.
  case_decide.
  - by apply lookup_replicate_2.
  - apply lookup_replicate_None. lia.
Qed.

Lemma pher_inv_ones n : 0 ≤ n → pher_inv (Z.to_nat n) (ones n).
Proof.
  intros Hn. split.
  - by apply square_ones.
  - intros r c. unfold entry, ones. rewrite !lookup_replicate_decide.
    repeat case_decide; simpl; rewrite ?lookup_replicate_decide;
      repeat case_decide; done.
  - intros r c v Hv. apply entry_ones in Hv. by subst.
Qed.

Lemma pher_inv_evaporate n P (k : Q) :
  (0 <= k)%Q → pher_inv n P → pher_inv n (map (map (λ p, p * k)%Q) P).
Proof.
  intros Hk [Hsq Hsym Hnn]. split.
  - by apply square_map.
  - intros r c. by rewrite !entry_map, Hsym.
  - intros r c v. rewrite entry_map.
    destruct (entry P r c) as [p|] eqn:Hp; [|done].
    intros [= <-]. apply Hnn in Hp. by apply Qmult_le_0_compat.
Qed.

(** The two updates of one edge keep the matrix symmetric. *)
Lemma pher_inv_edge n P r c v v1 dep :
  pher_inv n P → (0 <= dep)%Q →
  entry P r c = Some v →
  entry (mset P r c (v + dep)) c r = Some v1 →
  pher_inv n (mset (mset P r c (v + dep)) c r (v1 + dep)).
Proof.
  intros [Hsq Hsym Hnn] Hdep Hv Hv1.
  assert (0 <= v)%Q as Hv0 by (by eapply Hnn).
  assert (v1 = (if decide (r = c) then v + dep else v)%Q) as Hv1'.
  { destruct (decide (r = c)) as [->|Hne].
    - rewrite entry_mset_eq in Hv1 by (by rewrite Hv). by injection Hv1.
    - rewrite entry_mset_ne in Hv1 by congruence.
      rewrite <- Hsym, Hv in Hv1. by injection Hv1. }
  assert (0 <= v1)%Q as Hv10.
  { rewrite Hv1'. destruct (decide (r = c)); [|done]. lra. }
  assert (is_Some (entry (mset P r c (v + dep)) c r)) as Hs1 by (by rewrite Hv1).
  assert (is_Some (entry P r c)) as Hs0 by (by rewrite Hv).
  split.
  - by do 2 apply square_mset.
  - intros i j. rewrite !(entry_mset _ c r) by done.
    rewrite !(entry_mset _ r c) by done.
    repeat case_decide; simplify_eq; done.
  - intros i j x. rewrite (entry_mset _ c r) by done.
    rewrite (entry_mset _ r c) by done.
    repeat case_decide; simplify_eq;
      first [apply Hnn | intros [= <-]; lra].
Qed.

Lemma add_edge_inv n self a b dep r self' :
  pher_inv n (pheromones self) → (0 <= dep)%Q →
  (_ <~ add_pheromone a b dep;; add_pheromone b a dep) self = (r, self') →
  pher_inv n (pheromones self') ∧ frame self self'.
Proof.
  intros Hinv Hdep. unfold sbind.
  rewrite (add_pheromone_square n) by apply Hinv.
  destruct (norm_index (Z.of_nat n) a) as [ra|] eqn:Ha;
    [|intros [= <- <-]; split; [done|apply frame_refl]].
  destruct (norm_index (Z.of_nat n) b) as [cb|] eqn:Hb;
    [|intros [= <- <-]; split; [done|apply frame_refl]].
  destruct (entry (pheromones self) ra cb) as [v|] eqn:Hv;
    [|intros [= <- <-]; split; [done|apply frame_refl]].
  rewrite (add_pheromone_square n) by (apply square_mset, Hinv).
  rewrite Hb, Ha. cbn [pheromones set_pheromones].
  destruct (entry (mset (pheromones self) ra cb (v + dep)) cb ra) as [v1|] eqn:Hv1.
  - intros [= <- <-]. split; [|done].
    cbn [pheromones set_pheromones]. by eapply pher_inv_edge.
  - exfalso.
    pose proof (norm_index_lt _ _ _ Ha). pose proof (norm_index_lt _ _ _ Hb).
    destruct (square_entry n (mset (pheromones self) ra cb (v + dep)) cb ra)
      as [x Hx]; [apply square_mset, Hinv|done|done|congruence].
Qed.

(** A loop keeps what each of its iterations keeps, however it ends. *)
Lemma for_st_inv {S B} (I : S → Prop) (xs : list B) (body : B → St S unit) :
  (∀ x s r s', x ∈ xs → I s → body x s = (r, s') → I s') →
  ∀ s r s', I s → for_st xs body s = (r, s') → I s'.
Proof.
  induction xs as [|x xs IH]; intros Hbody s r s' Hs.
  - by intros [= <- <-].
  - cbn [for_st]. unfold sbind.
    destruct (body x s) as [[[]|e] s1] eqn:Hb.
    + apply IH.
      * intros y ? ? ? Hy. apply Hbody. by right.
      * eapply Hbody; [left|done|done].
    + intros [= <- <-]. eapply Hbody; [left|done|done].
Qed.

Lemma deposit_tour_inv n self tour distance r self' :
  pher_inv n (pheromones self) → (0 <= Q_ self / distance)%Q →
  deposit_tour tour distance self = (r, self') →
  pher_inv n (pheromones self') ∧ frame self self'.
Proof.
  intros Hinv Hdep. unfold deposit_tour.
  apply (for_st_inv (λ s, pher_inv n (pheromones s) ∧ frame self s));
    [|split; [done|apply frame_refl]].
  intros i s r1 s1 _ [Hs Hf]. unfold sbind at 1, lift.
  destruct (getitem tour i) as [a|]; [|intros [= <- <-]; done].
  unfold sbind at 1.
  destruct (getitem tour (i + 1)) as [b|]; [|intros [= <- <-]; done].
  intros Hedge. apply (add_edge_inv n) in Hedge as [H1 H2]; [|done..].
  split; [done|]. by eapply frame_trans.
Qed.

Lemma update_pheromones_inv n self all_tours r self' :
  pher_inv n (pheromones self) →
  (0 <= 1 - evaporation_rate self)%Q → (0 <= Q_ self)%Q →
  Forall (λ td : list Z * Q, 0 < td.2)%Q all_tours →
  update_pheromones all_tours self = (r, self') →
  pher_inv n (pheromones self') ∧ frame self self'.
Proof.
  intros Hinv Hrho Hq Hpos. unfold update_pheromones, sbind at 1, evaporate.
  apply (for_st_inv (λ s, pher_inv n (pheromones s) ∧ frame self s)).
  - intros [tour d] s r1 s1 Hin [Hs Hf] Hd.
    apply (deposit_tour_inv n) in Hd as [H1 H2]; [| done |].
    + split; [done|]. by eapply frame_trans.
    + rewrite Hf. cbn [Q_ set_pheromones].
      rewrite Forall_forall in Hpos. specialize (Hpos _ Hin). simpl in Hpos.
      apply Qle_shift_div_l; [done|]. lra.
  - split; [|done]. cbn [pheromones set_pheromones].
    by apply pher_inv_evaporate.
Qed.

Lemma add_pheromone_frame a b dep self r self' :
  add_pheromone a b dep self = (r, self') → frame self self'.
Proof.
  unfold add_pheromone.
  destruct (getitem2 (pheromones self) a b) as [p|];
    [|intros [= <- <-]; apply frame_refl].
  destruct (setitem2 (pheromones self) a b (p + dep)%Q) as [m|];
    intros [= <- <-]; [apply frame_set|apply frame_refl].
Qed.

Lemma deposit_tour_frame self tour distance r self' :
  deposit_tour tour distance self = (r, self') → frame self self'.
Proof.
  unfold deposit_tour.
  apply (for_st_inv (frame self)); [|apply frame_refl].
  intros i s r1 s1 _ Hf. unfold sbind at 1, lift.
  destruct (getitem tour i) as [a|]; [|intros [= <- <-]; done].
  unfold sbind at 1.
  destruct (getitem tour (i + 1)) as [b|]; [|intros [= <- <-]; done].
  unfold sbind.
  destruct (add_pheromone a b (Q_ self / distance) s) as [[[]|e] s2] eqn:H1.
  - intros H2. apply add_pheromone_frame in H1, H2.
    eapply frame_trans; [done|]. by eapply frame_trans.
  - intros [= <- <-]. apply add_pheromone_frame in H1. by eapply frame_trans.
Qed.

Lemma update_pheromones_frame self all_tours r self' :
  update_pheromones all_tours self = (r, self') → frame self self'.
Proof.
  unfold update_pheromones, sbind at 1, evaporate.
  apply (for_st_inv (frame self)); [|apply frame_set].
  intros [tour d] s r1 s1 _ Hf Hd.
  apply deposit_tour_frame in Hd. by eapply frame_trans.
Qed.

(** ** The order on best distances *)

Lemma ext_le_refl x : ext_le x x.
Proof. destruct x; simpl; [apply Qle_refl|done]. Qed.

Lemma ext_le_trans x y z : ext_le x y → ext_le y z → ext_le x z.
Proof.
  destruct x, y, z; simpl; try done. apply Qle_trans.
Qed.

Lemma ext_lt_le x y : ext_lt x y → ext_le x y.
Proof. destruct x, y; simpl; try done. apply Qlt_le_weak. Qed.

Lemma ext_lt_irrefl x : ¬ ext_lt x x.
Proof. destruct x; simpl; [apply Qlt_irrefl|tauto]. Qed.

Lemma lt_best_spec d best : lt_best d best = true ↔ ext_lt (Real d) best.
Proof.
  destruct best as [b|]; simpl; [|done].
  unfold Qltb. rewrite negb_true_iff. split.
  - intros H. apply Qnot_le_lt. intros Hle.
    apply Qle_bool_iff in Hle. congruence.
  - intros H. destruct (Qle_bool b d) eqn:Hb; [|done].
    apply Qle_bool_iff in Hb. by apply Qlt_not_le in H.
Qed.

(** ** One generation (C2, C3, C4) *)

(** The engine with another best tour and distance. *)
Definition with_best (self : engine) (bt : option (list Z)) (bd : ext) : engine :=
  Engine (distance_matrix self) (num_cities self) (num_ants self)
         (alpha self) (beta self) (evaporation_rate self) (Q_ self)
         (pheromones self) bt bd (history self).

(** Only the best tour and distance differ between two engines. *)
Definition bframe (self self' : engine) : Prop :=
  self' = with_best self (best_tour self') (best_distance self').

Lemma bframe_refl self : bframe self self.
Proof. by destruct self. Qed.

Lemma bframe_trans e1 e2 e3 : bframe e1 e2 → bframe e2 e3 → bframe e1 e3.
Proof. unfold bframe. intros H1 ->. by rewrite H1 at 1. Qed.

Section Generation.

Context {rng : Type}.
Variable choice : list Z → list Q → St rng Z.
Variable fpow : Q → Q → Q.

Lemma select_next_city_with_best self bt bd cur visited end_city :
  select_next_city choice fpow (with_best self bt bd) cur visited end_city
  = select_next_city choice fpow self cur visited end_city.
Proof. reflexivity. Qed.

Lemma build_tour_with_best fuel self bt bd end_city tour visited cur g :
  build_tour choice fpow fuel (with_best self bt bd) end_city tour visited cur g
  = build_tour choice fpow fuel self end_city tour visited cur g.
Proof.
  revert tour visited cur g.
  induction fuel as [|fuel IH]; intros tour visited cur g; cbn [build_tour];
    change (num_cities (with_best self bt bd)) with (num_cities self);
    [done|].
  destruct (len tour <? num_cities self - 1); [|done].
  rewrite select_next_city_with_best. unfold sbind.
  destruct (select_next_city choice fpow self cur visited end_city g)
    as [[c|e] g1]; [apply IH|done].
Qed.

Lemma construct_solution_bframe self self' start_city end_city g :
  bframe self self' →
  construct_solution choice fpow self' start_city end_city g
  = construct_solution choice fpow self start_city end_city g.
Proof.
  intros ->. unfold construct_solution, sbind.
  change (num_cities (with_best self _ _)) with (num_cities self).
  by rewrite build_tour_with_best.
Qed.

Lemma calculate_distance_bframe self self' tour :
  bframe self self' →
  calculate_distance self' tour = calculate_distance self tour.
Proof. by intros ->. Qed.

(** What the ants of one generation do to the engine: nothing but the
    best tour and distance change, and these change only to a tour
    built and measured in this generation that is strictly shorter than
    the best distance before. *)
Definition improved (self self' : engine) (start_city end_city : Z)
    (tours : list (list Z * Q)) (returned : bool) : Prop :=
  (best_distance self' = best_distance self
   ∧ best_tour self' = best_tour self)
  ∨ ∃ tour d ga gb,
      construct_solution choice fpow self start_city end_city ga = (Ok tour, gb)
      ∧ calculate_distance self tour = Ok d
      ∧ ext_lt (Real d) (best_distance self)
      ∧ best_distance self' = Real d
      ∧ best_tour self' = Some tour
      ∧ (returned = true → (tour, d) ∈ tours).

Lemma ants_outcome n start_city end_city acc self g r self' g' :
  ants choice fpow n start_city end_city acc (self, g) = (r, (self', g')) →
  bframe self self'
  ∧ ∃ new,
      (∀ all_tours, r = Ok all_tours → all_tours = acc ++ new)
      ∧ improved self self' start_city end_city new
                 (if r is Ok _ then true else false).
Proof.
  revert acc self g.
  induction n as [|n IH]; intros acc self g.
  - cbn [ants]. intros [= <- <- <-]. split; [apply bframe_refl|].
    exists []. split; [intros ? [= <-]; by rewrite app_nil_r|].
    by left.
  - cbn [ants]. unfold sbind at 1, reading at 1.
    destruct (construct_solution choice fpow self start_city end_city g)
      as [[tour|e] g1] eqn:Hc;
      [|intros [= <- <- <-]; split; [apply bframe_refl|];
        exists []; split; [done|by left]].
    unfold sbind at 1, reading at 1, lift.
    destruct (calculate_distance self tour) as [d|e] eqn:Hd;
      [|intros [= <- <- <-]; split; [apply bframe_refl|];
        exists []; split; [done|by left]].
    unfold sbind at 1, mutating at 1.
    destruct (lt_best d (best_distance self)) eqn:Hlt.
    + intros Hrest. apply IH in Hrest as (Hbf & new & Hall & Himp).
      assert (bframe self (set_best self d tour)) as Hb1 by done.
      split; [by eapply bframe_trans|].
      exists ((tour, d) :: new). split.
      { intros all Hr. rewrite (Hall all Hr). by rewrite <- app_assoc. }
      apply lt_best_spec in Hlt.
      destruct Himp as [[Hbd Hbt]|(tour' & d' & ga & gb & H1 & H2 & H3 & H4 & H5 & H6)].
      * right. exists tour, d, g, g1. split_and!; try done.
        intros _. left.
      * right. exists tour', d', ga, gb.
        rewrite (construct_solution_bframe self) in H1 by done.
        rewrite (calculate_distance_bframe self) in H2 by done.
        split_and!; try done.
        -- cbn [best_distance set_best] in H3.
           destruct (best_distance self) as [b|]; [|done].
           simpl in *. lra.
        -- intros Hr. right. by apply H6.
    + intros Hrest. apply IH in Hrest as (Hbf & new & Hall & Himp).
      split; [done|]. exists ((tour, d) :: new). split.
      { intros all Hr. rewrite (Hall all Hr). by rewrite <- app_assoc. }
      destruct Himp as [?|(tour' & d' & ga & gb & H1 & H2 & H3 & H4 & H5 & H6)];
        [by left|].
      right. exists tour', d', ga, gb. split_and!; try done.
      intros Hr. right. by apply H6.
Qed.

(** The phases of [run_iteration]: the ants, then the pheromone update,
    then the history; a phase that raises ends the call. *)
Lemma run_iteration_phases start_city end_city self g r self' g' :
  run_iteration choice fpow start_city end_city (self, g) = (r, (self', g')) →
  ∃ ra e1,
    ants choice fpow (Z.to_nat (num_ants self)) start_city end_city []
         (self, g) = (ra, (e1, g'))
    ∧ match ra with
      | Raise x => r = Raise x ∧ self' = e1
      | Ok all_tours =>
          ∃ ru e2,
            update_pheromones all_tours e1 = (ru, e2)
            ∧ match ru with
              | Raise x => r = Raise x ∧ self' = e2
              | Ok _ =>
                  self' = append_history e2
                  ∧ r = Ok (best_tour e2, best_distance e2,
                            mean (map snd all_tours))
              end
      end.
Proof.
  unfold run_iteration, sbind at 1, reading at 1, sret at 1.
  unfold sbind at 1.
  destruct (ants choice fpow (Z.to_nat (num_ants self)) start_city end_city []
              (self, g)) as [[all_tours|x] [e1 g1]] eqn:Ha.
  - unfold sbind at 1, mutating at 1.
    destruct (update_pheromones all_tours e1) as [[[]|x] e2] eqn:Hu.
    + unfold sbind, mutating, reading, sret. intros [= <- <- <-].
      exists (Ok all_tours), e1. split; [done|].
      exists (Ok tt), e2. done.
    + intros [= <- <- <-]. exists (Ok all_tours), e1. split; [done|].
      exists (Raise x), e2. done.
  - intros [= <- <- <-]. by exists (Raise x), e1.
Qed.

Lemma run_iteration_best start_city end_city self g r self' g' :
  run_iteration choice fpow start_city end_city (self, g) = (r, (self', g')) →
  (history self' = history self ++ (if r is Ok _ then [best_distance self'] else []))
  ∧ ∃ all_tours,
      improved self self' start_city end_city all_tours
               (if r is Ok _ then true else false)
      ∧ ((if r is Ok _ then true else false) = true →
         ∃ e1, ants choice fpow (Z.to_nat (num_ants self)) start_city end_city []
                    (self, g) = (Ok all_tours, (e1, g'))).
Proof.
  intros Hrun. apply run_iteration_phases in Hrun as (ra & e1 & Ha & Hrest).
  pose proof (ants_outcome _ _ _ _ _ _ _ _ _ Ha) as (Hbf & new & Hall & Himp).
  assert (∀ e2, frame e1 e2 →
            best_distance e2 = best_distance e1
            ∧ best_tour e2 = best_tour e1
            ∧ history e2 = history self) as Hframe.
  { intros e2 ->. by rewrite Hbf. }
  assert (∀ e2 b, best_distance e2 = best_distance e1 →
            best_tour e2 = best_tour e1 →
            improved self e1 start_city end_city new b →
            improved self e2 start_city end_city new false) as Hweak.
  { intros e2 b Hd Ht [[H1 H2]|(tour & d & ga & gb & H1 & H2 & H3 & H4 & H5 & _)].
    - left. split; congruence.
    - right. exists tour, d, ga, gb. split_and!; try done; congruence. }
  destruct ra as [all_tours|x].
  - destruct Hrest as (ru & e2 & Hu & Hrest).
    apply update_pheromones_frame in Hu.
    destruct (Hframe e2 Hu) as (Hd & Ht & Hh).
    specialize (Hall all_tours eq_refl). simpl in Hall. subst new.
    destruct ru as [[]|x]; destruct Hrest as [-> ->].
    + split; [cbn [history best_distance append_history]; by rewrite Hh|].
      exists all_tours. split; [|intros _; by exists e1].
      unfold improved. cbn [best_distance best_tour append_history].
      destruct Himp as [[H1 H2]|(tour & d & ga & gb & H1 & H2 & H3 & H4 & H5 & H6)].
      * left. split; congruence.
      * right. exists tour, d, ga, gb. split_and!; try done; congruence.
    + split; [by rewrite Hh, app_nil_r|].
      exists all_tours. split; [by eapply Hweak|done].
  - destruct Hrest as [-> ->].
    destruct (Hframe e1 (frame_refl e1)) as (_ & _ & Hh).
    split; [by rewrite Hh, app_nil_r|].
    exists new. split; [by eapply Hweak|done].
Qed.

(** The engines reached from [e0] by calls of [run_iteration], with any
    end points and generator states, [k] of which returned; [ok] is what
    is assumed of each call. *)
Inductive after_calls (ok : engine → Z → Z → rng → Prop) (e0 : engine)
  : nat → engine → Prop :=
| calls_none : after_calls ok e0 0 e0
| calls_returned k self start_city end_city g res self' g' :
    after_calls ok e0 k self →
    ok self start_city end_city g →
    run_iteration choice fpow start_city end_city (self, g)
    = (Ok res, (self', g')) →
    after_calls ok e0 (S k) self'
| calls_raised k self start_city end_city g x self' g' :
    after_calls ok e0 k self →
    ok self start_city end_city g →
    run_iteration choice fpow start_city end_city (self, g)
    = (Raise x, (self', g')) →
    after_calls ok e0 k self'.

Definition any_call : engine → Z → Z → rng → Prop := λ _ _ _ _, True.

(** [history[i] >= history[i+1]] for every valid [i]. *)
Definition nonincreasing (h : list ext) : Prop :=
  ∀ i x y, h !! i = Some x → h !! S i = Some y → ext_le y x.

Lemma nonincreasing_snoc h b :
  nonincreasing h → Forall (ext_le b) h → nonincreasing (h ++ [b]).
Proof.
  intros Hh Hb i x y Hx Hy.
  destruct (decide (S i < length h)%nat) as [Hlt|Hge].
  - rewrite lookup_app_l in Hx, Hy by lia. by eapply Hh.
  - apply lookup_lt_Some in Hy as Hlen. rewrite length_app in Hlen.
    simpl in Hlen. assert (S i = length h) as Hi by lia.
    rewrite lookup_app_l in Hx by lia.
    rewrite Hi, list_lookup_middle in Hy by done. injection Hy as <-.
    rewrite Forall_forall in Hb. apply Hb. by eapply list_elem_of_lookup_2.
Qed.

Lemma improved_le self self' s t tours b :
  improved self self' s t tours b →
  ext_le (best_distance self') (best_distance self).
Proof.
  intros [[-> _]|(tour & d & ga & gb & _ & _ & Hlt & -> & _)].
  - apply ext_le_refl.
  - by apply ext_lt_le.
Qed.

Lemma after_calls_history ok e0 k self :
  history e0 = [] →
  after_calls ok e0 k self →
  length (history self) = k
  ∧ nonincreasing (history self)
  ∧ Forall (ext_le (best_distance self)) (history self).
Proof.
  intros H0. induction 1 as [|k self s t g res self' g' _ IH _ Hrun
                             |k self s t g x self' g' _ IH _ Hrun].
  - rewrite H0. split_and!; [done| |done]. by intros i x y.
  - destruct IH as (Hlen & Hmono & Hbound).
    apply run_iteration_best in Hrun as (Hh & tours & Himp & _).
    apply improved_le in Himp.
    assert (Forall (ext_le (best_distance self')) (history self)) as Hb'.
    { eapply Forall_impl; [exact Hbound|]. intros h Hhb.
      by eapply ext_le_trans. }
    rewrite Hh. split_and!.
    + rewrite length_app. simpl. lia.
    + by apply nonincreasing_snoc.
    + apply Forall_app. split; [done|].
      apply Forall_singleton, ext_le_refl.
  - destruct IH as (Hlen & Hmono & Hbound).
    apply run_iteration_best in Hrun as (Hh & tours & Himp & _).
    apply improved_le in Himp. rewrite Hh, app_nil_r.
    split_and!; [done..|].
    eapply Forall_impl; [exact Hbound|]. intros h Hhb.
    by eapply ext_le_trans.
Qed.

(** C2. A call of [run_iteration], whether it returns or raises, leaves
    a best distance that is at most the one before; it is strictly
    smaller only if an ant of this generation built a tour strictly
    shorter than the best distance before, which then is the new best
    (and, when the call returns, one of the generation's recorded
    pairs).  From a new engine, after calls of which [k] returned, the
    history has [k] entries and does not increase. *)
Theorem best_distance_monotone :
  (∀ start_city end_city self g r self' g',
     run_iteration choice fpow start_city end_city (self, g)
     = (r, (self', g')) →
     ext_le (best_distance self') (best_distance self)
     ∧ (ext_lt (best_distance self') (best_distance self) →
        ∃ tour d ga gb,
          construct_solution choice fpow self start_city end_city ga
          = (Ok tour, gb)
          ∧ calculate_distance self tour = Ok d
          ∧ ext_lt (Real d) (best_distance self)
          ∧ best_distance self' = Real d
          ∧ best_tour self' = Some tour
          ∧ (∀ res, r = Ok res →
             ∃ all_tours e1,
               ants choice fpow (Z.to_nat (num_ants self))
                    start_city end_city [] (self, g)
               = (Ok all_tours, (e1, g'))
               ∧ (tour, d) ∈ all_tours)))
  ∧ (∀ dm n_ants a b rho q e0 k self,
       __init__ dm n_ants a b rho q = Ok e0 →
       after_calls any_call e0 k self →
       length (history self) = k ∧ nonincreasing (history self)).
Proof.
  split.
  - intros s t self g r self' g' Hrun.
    apply run_iteration_best in Hrun as (_ & tours & Himp & Hret).
    split; [by eapply improved_le|].
    intros Hlt.
    destruct Himp as [[Heq _]|(tour & d & ga & gb & H1 & H2 & H3 & H4 & H5 & H6)].
    + rewrite Heq in Hlt. by apply ext_lt_irrefl in Hlt.
    + exists tour, d, ga, gb. split_and!; try done.
      intros res ->. destruct (Hret eq_refl) as [e1 He1].
      exists tours, e1. split; [done|]. by apply H6.
  - intros dm n_ants a b rho q e0 k self [= <-] Hcalls.
    apply after_calls_history in Hcalls as (H1 & H2 & _); done.
Qed.

(** Every tour length handed to the pheromone update by the call is
    strictly positive. *)
Definition positive_lengths : engine → Z → Z → rng → Prop :=
  λ self start_city end_city g,
    ∀ all_tours w,
      ants choice fpow (Z.to_nat (num_ants self)) start_city end_city []
           (self, g) = (Ok all_tours, w) →
      Forall (λ td : list Z * Q, 0 < td.2)%Q all_tours.

Record engine_inv (self : engine) : Prop := {
  einv_pher : pher_inv (Z.to_nat (num_cities self)) (pheromones self);
  einv_rho : (0 < evaporation_rate self < 1)%Q;
  einv_q : (0 < Q_ self)%Q
}.

Lemma run_iteration_engine_inv start_city end_city self g r self' g' :
  engine_inv self →
  positive_lengths self start_city end_city g →
  run_iteration choice fpow start_city end_city (self, g) = (r, (self', g')) →
  engine_inv self' ∧ num_cities self' = num_cities self.
Proof.
  intros [Hp Hrho Hq] Hpos Hrun.
  apply run_iteration_phases in Hrun as (ra & e1 & Ha & Hrest).
  pose proof (ants_outcome _ _ _ _ _ _ _ _ _ Ha) as (Hbf & _).
  assert (engine_inv e1 ∧ num_cities e1 = num_cities self) as [He1 Hn1].
  { rewrite Hbf. by split. }
  destruct ra as [all_tours|x]; [|by destruct Hrest as [_ ->]].
  destruct Hrest as (ru & e2 & Hu & Hrest).
  specialize (Hpos _ _ Ha).
  destruct He1 as [Hp1 Hrho1 Hq1].
  apply (update_pheromones_inv (Z.to_nat (num_cities e1))) in Hu
    as [Hp2 Hf]; [|done|lra|lra|done].
  assert (engine_inv e2 ∧ num_cities e2 = num_cities self) as [He2 Hn2].
  { rewrite Hf. split; [split|]; done. }
  destruct ru as [[]|x].
  - destruct Hrest as [-> _]. destruct He2. by split.
  - by destruct Hrest as [_ ->].
Qed.

Lemma after_calls_engine_inv e0 k self :
  engine_inv e0 →
  after_calls positive_lengths e0 k self →
  engine_inv self ∧ num_cities self = num_cities e0.
Proof.
  intros H0. induction 1 as [|k self s t g res self' g' _ IH Hok Hrun
                             |k self s t g x self' g' _ IH Hok Hrun].
  - done.
  - destruct IH as [IH Hn].
    apply run_iteration_engine_inv in Hrun as [H1 H2]; [|done..].
    split; [done|congruence].
  - destruct IH as [IH Hn].
    apply run_iteration_engine_inv in Hrun as [H1 H2]; [|done..].
    split; [done|congruence].
Qed.

(** C3. From the all-ones matrix of a new engine with an evaporation
    rate in (0,1) and a positive [Q], after any number of calls of
    [run_iteration] (returning or raising) that hand only strictly
    positive tour lengths to the pheromone update, the pheromone matrix
    is symmetric and its entries are not negative. *)
Theorem pheromones_symmetric_nonneg (dm : list (list Q)) (n_ants : Z)
    (a b rho q : Q) (e0 : engine) (k : nat) (self : engine) (i j : Z) :
  (0 < rho < 1)%Q → (0 < q)%Q →
  __init__ dm n_ants a b rho q = Ok e0 →
  after_calls positive_lengths e0 k self →
  0 ≤ i < len dm → 0 ≤ j < len dm →
  ∃ v, getitem2 (pheromones self) i j = Ok v
       ∧ getitem2 (pheromones self) j i = Ok v
       ∧ (0 <= v)%Q.
Proof.
  intros Hrho Hq [= <-] Hcalls Hi Hj.
  apply after_calls_engine_inv in Hcalls as [[[Hsq Hsym Hnn] _ _] Hn].
  - cbn [num_cities] in Hn. rewrite Hn in Hsq.
    rewrite !(getitem2_square _ _ _ _ Hsq).
    rewrite Z2Nat.id by apply len_nonneg.
    rewrite !norm_index_range by done.
    destruct (square_entry _ _ (Z.to_nat i) (Z.to_nat j) Hsq) as [v Hv];
      [unfold len in *; lia..|].
    exists v. rewrite (Hsym (Z.to_nat j) (Z.to_nat i)), Hv. split_and!; [done..|]. by eapply Hnn.
  - split; cbn [num_cities pheromones evaporation_rate Q_]; [|done..].
    apply pher_inv_ones, len_nonneg.
Qed.

(** *** End points out of range (C4) *)

Record well_formed (self : engine) : Prop := {
  wf_cities : num_cities self = len (distance_matrix self);
  wf_distance : square (Z.to_nat (num_cities self)) (distance_matrix self);
  wf_pheromones : square (Z.to_nat (num_cities self)) (pheromones self)
}.

Lemma getitem_raise {A} (l : list A) i x : getitem l i = Raise x → x = IndexError.
Proof.
  unfold getitem. destruct (norm_index (len l) i) as [k|]; [|congruence].
  destruct (l !! k); congruence.
Qed.

Lemma getitem2_raise {A} (m : list (list A)) i j x :
  getitem2 m i j = Raise x → x = IndexError.
Proof.
  unfold getitem2. destruct (getitem m i) as [row|] eqn:Hrow; simpl.
  - apply getitem_raise.
  - intros [= <-]. by apply getitem_raise in Hrow.
Qed.

Lemma getitem2_invalid n (m : list (list Q)) i j :
  square n m →
  norm_index (Z.of_nat n) i = None ∨ norm_index (Z.of_nat n) j = None →
  getitem2 m i j = Raise IndexError.
Proof.
  intros Hsq H. rewrite (getitem2_square n) by done.
  destruct H as [-> | ->]; [done|]. by destruct (norm_index (Z.of_nat n) i).
Qed.

(** A tour of two cities or more that holds an invalid index has no
    length. *)
Lemma path_length_invalid n dm tour c :
  square n dm → (2 ≤ length tour)%nat →
  c ∈ tour → norm_index (Z.of_nat n) c = None →
  path_length dm tour = Raise IndexError.
Proof.
  intros Hsq. revert c. induction tour as [|a tour IH]; intros c Hlen Hc Hbad.
  { simpl in Hlen. lia. }
  destruct tour as [|b rest]; [simpl in Hlen; lia|].
  rewrite path_length_cons.
  destruct (norm_index (Z.of_nat n) a) as [ra|] eqn:Ha;
    [|by rewrite (getitem2_invalid n) by auto].
  destruct (norm_index (Z.of_nat n) b) as [cb|] eqn:Hb;
    [|by rewrite (getitem2_invalid n) by auto].
  destruct (getitem2 dm a b) as [d|x] eqn:Hd; cbn [rbind];
    [|by apply getitem2_raise in Hd; subst].
  apply elem_of_cons in Hc as [->|Hc]; [congruence|].
  assert (is_Some (head rest)) as [b' Hb'].
  { destruct rest as [|b' rest]; [|by eexists].
    apply list_elem_of_singleton in Hc. congruence. }
  rewrite (IH c); [done| |done|done].
  destruct rest; simpl in *; [done|lia].
Qed.

Lemma calculate_distance_invalid self tour c :
  well_formed self → (2 ≤ length tour)%nat →
  c ∈ tour → norm_index (num_cities self) c = None →
  calculate_distance self tour = Raise IndexError.
Proof.
  intros [Hn Hdm _] Hlen Hc Hbad.
  pose proof (calculate_distance_path_length self tour) as Heq.
  rewrite (path_length_invalid (Z.to_nat (num_cities self)) _ _ c) in Heq;
    [|done|done|done|].
  - destruct (calculate_distance self tour); simpl in Heq; [done|congruence].
  - rewrite Z2Nat.id; [done|]. rewrite Hn. apply len_nonneg.
Qed.

Lemma candidate_loop_invalid self cur (visited : gset Z) end_city xs acc :
  (∀ city, getitem2 (pheromones self) cur city = Raise IndexError) →
  filter (λ city, (city ∉ visited) ∧ city ≠ end_city) xs ≠ [] →
  for_in xs acc (λ city probabilities,
    if bool_decide (city ∉ visited) && bool_decide (city ≠ end_city) then
      p <- getitem2 (pheromones self) cur city;;
      d <- getitem2 (distance_matrix self) cur city;;
      let pheromone := fpow p (alpha self) in
      let distance := fpow (1 / d)%Q (beta self) in
      Ok (probabilities ++ [(city, (pheromone * distance)%Q)])
    else Ok probabilities) = Raise IndexError.
Proof.
  intros Hbad. revert acc. induction xs as [|x xs IH]; intros acc; [done|].
  rewrite filter_cons. cbn [for_in].
  destruct (decide ((x ∉ visited) ∧ x ≠ end_city)) as [[Hv He]|Hn].
  - intros _.
    rewrite (bool_decide_eq_true_2 _ Hv), (bool_decide_eq_true_2 _ He).
    cbn [andb]. by rewrite Hbad.
  - intros Hne.
    assert (bool_decide (x ∉ visited) && bool_decide (x ≠ end_city) = false)
      as ->.
    { apply andb_false_iff.
      destruct (decide (x ∉ visited)) as [Hv|Hv].
      - right. apply bool_decide_eq_false_2. intros He. by apply Hn.
      - left. by apply bool_decide_eq_false_2. }
    cbn [rbind]. by apply IH.
Qed.

Lemma candidate_loop_raise self cur (visited : gset Z) end_city xs acc x :
  for_in xs acc (λ city probabilities,
    if bool_decide (city ∉ visited) && bool_decide (city ≠ end_city) then
      p <- getitem2 (pheromones self) cur city;;
      d <- getitem2 (distance_matrix self) cur city;;
      let pheromone := fpow p (alpha self) in
      let distance := fpow (1 / d)%Q (beta self) in
      Ok (probabilities ++ [(city, (pheromone * distance)%Q)])
    else Ok probabilities) = Raise x →
  x = IndexError.
Proof.
  revert acc. induction xs as [|y xs IH]; intros acc; [done|].
  cbn [for_in].
  destruct (bool_decide (y ∉ visited) && bool_decide (y ≠ end_city));
    [|apply IH].
  destruct (getitem2 (pheromones self) cur y) as [p|] eqn:Hp;
    [|intros [= <-]; by apply getitem2_raise in Hp].
  destruct (getitem2 (distance_matrix self) cur y) as [d|] eqn:Hd;
    [|intros [= <-]; by apply getitem2_raise in Hd].
  apply IH.
Qed.

(** An exception of the random source, as opposed to an index error. *)
Definition sampler_raises (x : exn) : Prop :=
  ∃ cities probs g1 g2, choice cities probs g1 = (Raise x, g2).

Lemma select_next_city_raise self cur visited end_city g x g' :
  select_next_city choice fpow self cur visited end_city g = (Raise x, g') →
  x = IndexError ∨ sampler_raises x.
Proof.
  unfold select_next_city, sbind, lift.
  destruct (candidate_weights fpow self cur visited end_city)
    as [probs|y] eqn:Hw.
  - destruct probs; [done|]. intros Hc. right. by eexists _, _, _, _.
  - intros [= <- <-]. left. by apply candidate_loop_raise in Hw.
Qed.

Lemma build_tour_raise fuel self end_city tour visited cur g x g' :
  build_tour choice fpow fuel self end_city tour visited cur g = (Raise x, g') →
  x = IndexError ∨ sampler_raises x.
Proof.
  revert tour visited cur g.
  induction fuel as [|fuel IH]; intros tour visited cur g; cbn [build_tour];
    destruct (len tour <? num_cities self - 1); try done.
  unfold sbind.
  destruct (select_next_city choice fpow self cur visited end_city g)
    as [[c|y] g1] eqn:Hsel; [apply IH|].
  intros [= <- <-]. by apply select_next_city_raise in Hsel.
Qed.

Lemma build_tour_prefix fuel self end_city tour visited cur g body g' :
  build_tour choice fpow fuel self end_city tour visited cur g = (Ok body, g') →
  ∃ rest, body = tour ++ rest.
Proof.
  revert tour visited cur g.
  induction fuel as [|fuel IH]; intros tour visited cur g; cbn [build_tour];
    destruct (len tour <? num_cities self - 1);
    try (intros [= <- <-]; exists []; by rewrite app_nil_r).
  unfold sbind.
  destruct (select_next_city choice fpow self cur visited end_city g)
    as [[c|y] g1]; [|done].
  intros Hb. apply IH in Hb as [rest ->]. exists (c :: rest).
  by rewrite <- app_assoc.
Qed.

(** With the start city out of range, the first ant raises before any
    random draw. *)
Lemma first_ant_bad_start self start_city end_city g :
  well_formed self → num_cities self ≤ start_city →
  construct_solution choice fpow self start_city end_city g
  = (Raise IndexError, g)
  ∨ (∃ tour, construct_solution choice fpow self start_city end_city g
             = (Ok tour, g)
             ∧ calculate_distance self tour = Raise IndexError).
Proof.
  intros Hwf Hs. pose proof Hwf as [Hn Hdm Hph].
  assert (0 ≤ num_cities self) as Hn0 by (rewrite Hn; apply len_nonneg).
  assert (norm_index (num_cities self) start_city = None) as Hbad
    by (by apply norm_index_high).
  unfold construct_solution, sbind at 1.
  destruct (decide (len [start_city] < num_cities self - 1)) as [Hguard|Hguard].
  - left.
    destruct (Z.to_nat (num_cities self)) as [|fuel] eqn:Hfuel;
      [unfold len in Hguard; simpl in Hguard; lia|].
    cbn [build_tour]. rewrite (proj2 (Z.ltb_lt _ _) Hguard).
    unfold sbind, select_next_city, sbind, lift, candidate_weights.
    rewrite candidate_loop_invalid; [done| |].
    + intros city. apply (getitem2_invalid (S fuel)); [done|].
      left. by rewrite <- Hfuel, Z2Nat.id.
    + apply (candidates_nonempty self end_city [start_city]); [|done].
      intros c Hc. apply elem_of_singleton in Hc. subst. left.
  - right. exists [start_city; end_city]. split.
    + destruct (Z.to_nat (num_cities self)) as [|fuel]; cbn [build_tour];
        by rewrite (proj2 (Z.ltb_ge _ _)) by lia.
    + apply (calculate_distance_invalid _ _ start_city);
        [done|simpl; lia|left|done].
Qed.

(** With the end city out of range, the first ant raises while it
    builds its tour, or when the tour is measured. *)
Lemma first_ant_bad_end self start_city end_city g :
  well_formed self → num_cities self ≤ end_city →
  (∃ x g', construct_solution choice fpow self start_city end_city g
           = (Raise x, g')
           ∧ (x = IndexError ∨ sampler_raises x))
  ∨ (∃ tour g', construct_solution choice fpow self start_city end_city g
                = (Ok tour, g')
                ∧ calculate_distance self tour = Raise IndexError).
Proof.
  intros Hwf He. pose proof Hwf as [Hn Hdm Hph].
  assert (0 ≤ num_cities self) as Hn0 by (rewrite Hn; apply len_nonneg).
  destruct (construct_solution choice fpow self start_city end_city g)
    as [[tour|x] g1] eqn:Hc; unfold construct_solution, sbind, sret in Hc;
    destruct (build_tour choice fpow (Z.to_nat (num_cities self)) self end_city
                [start_city] {[start_city]} start_city g)
      as [[body|y] g2] eqn:Hb; simplify_eq.
  - right. exists (body ++ [end_city]), g1. split; [done|].
    apply build_tour_prefix in Hb as [rest ->].
    apply (calculate_distance_invalid _ _ end_city); [done| | |].
    + rewrite !length_app. simpl. lia.
    + apply elem_of_app. right. left.
    + by apply norm_index_high.
  - left. exists x, g1. split; [done|]. by apply build_tour_raise in Hb.
Qed.

(** C4 (as the code has it). On an engine with square matrices and at
    least one ant, a call of [run_iteration] with a start or end index
    that is [>= N] raises and leaves the engine as it was.  What is
    raised is [IndexError]: the code has no error of its own; with the
    end index out of range the random source may raise first. *)
Theorem run_iteration_out_of_range (start_city end_city : Z)
    (self : engine) (g : rng) :
  well_formed self →
  1 ≤ num_ants self →
  num_cities self ≤ start_city ∨ num_cities self ≤ end_city →
  ∃ x g',
    run_iteration choice fpow start_city end_city (self, g)
    = (Raise x, (self, g'))
    ∧ (x = IndexError ∨ sampler_raises x)
    ∧ (num_cities self ≤ start_city → x = IndexError ∧ g' = g).
Proof.
  intros Hwf Hants Hbad.
  unfold run_iteration, sbind at 1, reading at 1, sret at 1.
  destruct (Z.to_nat (num_ants self)) as [|n] eqn:Hn; [lia|].
  unfold sbind at 1. cbn [ants]. unfold sbind at 1, reading at 1.
  destruct (decide (num_cities self ≤ start_city)) as [Hs|Hs].
  - destruct (first_ant_bad_start self start_city end_city g Hwf Hs)
      as [->|(tour & -> & Hd)].
    + exists IndexError, g. split_and!; [done|by left|done].
    + unfold sbind at 1, reading at 1, lift. rewrite Hd.
      exists IndexError, g. split_and!; [done|by left|done].
  - destruct Hbad as [?|He]; [done|].
    destruct (first_ant_bad_end self start_city end_city g Hwf He)
      as [(x & g' & -> & Hx)|(tour & g' & -> & Hd)].
    + exists x, g'. split_and!; [done|done|done].
    + unfold sbind at 1, reading at 1, lift. rewrite Hd.
      exists IndexError, g'. split_and!; [done|by left|done].
Qed.

End Generation.

(** ** Construction never fails (C5) *)

(** C5 (as the code has it). [__init__] validates nothing: for every
    distance matrix, of any number of rows and square or not, it returns an
    engine over [N = len(distance_matrix)] cities with an all-ones N x N
    pheromone matrix, no best tour, an infinite best distance and an empty
    history. *)
Theorem init_never_fails (dm : list (list Q)) (n_ants : Z) (a b rho q : Q) :
  ∃ self,
    __init__ dm n_ants a b rho q = Ok self
    ∧ distance_matrix self = dm
    ∧ num_cities self = len dm
    ∧ square (length dm) (pheromones self)
    ∧ (∀ r c v, entry (pheromones self) r c = Some v → v = 1%Q)
    ∧ best_tour self = None
    ∧ best_distance self = Inf
    ∧ history self = [].
Proof.
  eexists. split; [reflexivity|]. cbn. split_and!; try done.
  - rewrite <- (Nat2Z.id (length dm)) at 1. apply square_ones, len_nonneg.
  - apply entry_ones.
Qed.

(** ** The pheromone update, entry by entry (C6) *)

Lemma Qsum_snoc (l : list Q) (x : Q) : (Qsum (l ++ [x]) == Qsum l + x)%Q.
Proof. unfold Qsum. rewrite fold_left_app. simpl. ring. Qed.

(** The consecutive pairs of a tour. *)
Definition consecutive (tour : list Z) : list (Z * Z) := zip tour (tail tour).

(** 1 when an update at indices [a], [b] lands on cell [(i, j)] of an
    [n] x [n] matrix, else 0. *)
Definition hit (n i j : nat) (a b : Z) : Q :=
  if decide (norm_index (Z.of_nat n) a = Some i
             ∧ norm_index (Z.of_nat n) b = Some j)
  then 1%Q else 0%Q.

(** How many of the two updates of edge [(a, b)] land on cell [(i, j)]. *)
Definition edge_hits (n i j : nat) (ab : Z * Z) : Q :=
  (hit n i j ab.1 ab.2 + hit n i j ab.2 ab.1)%Q.

(** What one tour adds to cell [(i, j)], as the specification words it:
    [Q / distance] for each of its consecutive pairs, in both directions. *)
Definition tour_deposit (n : nat) (q : Q) (i j : nat) (td : list Z * Q) : Q :=
  ((q / td.2) * Qsum (map (edge_hits n i j) (consecutive td.1)))%Q.

(** The specified content of cell [(i, j)] after the update. *)
Definition updated_entry (n : nat) (rho q : Q) (all_tours : list (list Z * Q))
    (i j : nat) (v : Q) : Q :=
  (v * (1 - rho) + Qsum (map (tour_deposit n q i j) all_tours))%Q.

Lemma consecutive_cons a b rest :
  consecutive (a :: b :: rest) = (a, b) :: consecutive (b :: rest).
Proof. reflexivity. Qed.

Lemma elem_of_consecutive a b tour :
  (a, b) ∈ consecutive tour → a ∈ tour ∧ b ∈ tour.
Proof.
  induction tour as [|x tour IH]; [by intros ?%elem_of_nil|].
  destruct tour as [|y rest]; [by intros ?%elem_of_nil|].
  rewrite consecutive_cons. intros [[= -> ->]|Hin]%elem_of_cons.
  - split; [left|right; left].
  - destruct (IH Hin). split; by right.
Qed.

Lemma for_st_cons {S B} (body : B → St S unit) x xs (s : S) :
  for_st (x :: xs) body s
  = match body x s with
    | (Ok _, s') => for_st xs body s'
    | (Raise e, s') => (Raise e, s')
    end.
Proof. reflexivity. Qed.

Lemma sbind_lift_ok {S A B} (v : A) (k : A → St S B) (s : S) :
  sbind (lift (Ok v)) k s = k v s.
Proof. reflexivity. Qed.

(** The loop over the positions of a tour is a loop over its consecutive
    pairs. *)
Lemma for_st_consecutive {S} (f : Z → Z → St S unit) pre a suf (s : S) :
  for_st (seqZ (len pre) (len (a :: suf) - 1)) (λ i,
    x <~ lift (getitem (pre ++ a :: suf) i);;
    y <~ lift (getitem (pre ++ a :: suf) (i + 1));;
    f x y) s
  = for_st (consecutive (a :: suf)) (λ ab, f ab.1 ab.2) s.
Proof.
  revert pre a s. induction suf as [|b suf IH]; intros pre a s; [done|].
  rewrite seqZ_cons by (unfold len; simpl; lia).
  rewrite consecutive_cons.
  replace (Z.succ (len pre)) with (len (pre ++ [a]))
    by (rewrite len_app; unfold len; simpl; lia).
  replace (Z.pred (len (a :: b :: suf) - 1)) with (len (b :: suf) - 1)
    by (unfold len; simpl; lia).
  specialize (IH (pre ++ [a]) b).
  replace ((pre ++ [a]) ++ b :: suf) with (pre ++ a :: b :: suf) in IH
    by (by rewrite <- app_assoc).
  assert (getitem (pre ++ a :: b :: suf) (len pre + 1) = Ok b) as Hb.
  { replace (pre ++ a :: b :: suf) with ((pre ++ [a]) ++ b :: suf)
      by (by rewrite <- app_assoc).
    replace (len pre + 1) with (len (pre ++ [a])) by (rewrite len_app; done).
    apply getitem_middle. }
  rewrite !for_st_cons. cbv beta.
  rewrite getitem_middle, Hb, !sbind_lift_ok. cbn [fst snd].
  destruct (f a b s) as [[[]|e] s1]; [|done]. apply IH.
Qed.

Lemma deposit_tour_consecutive tour distance self :
  deposit_tour tour distance self
  = for_st (consecutive tour) (λ ab,
      _ <~ add_pheromone ab.1 ab.2 (Q_ self / distance);;
      add_pheromone ab.2 ab.1 (Q_ self / distance)) self.
Proof.
  unfold deposit_tour. destruct tour as [|a suf]; [done|].
  apply (for_st_consecutive
           (λ x y, _ <~ add_pheromone x y (Q_ self / distance);;
                   add_pheromone y x (Q_ self / distance)) []).
Qed.

(** A loop all of whose iterations return, with what it has established
    after the elements processed so far. *)
Lemma for_st_ok {S B} (I : list B → S → Prop) (xs : list B)
    (body : B → St S unit) :
  (∀ done x s, I done s → x ∈ xs →
     ∃ s', body x s = (Ok tt, s') ∧ I (done ++ [x]) s') →
  ∀ done s, I done s →
    ∃ s', for_st xs body s = (Ok tt, s') ∧ I (done ++ xs) s'.
Proof.
  induction xs as [|x xs IH]; intros Hbody done s Hs.
  - exists s. by rewrite app_nil_r.
  - destruct (Hbody done x s Hs) as (s1 & Hb & H1); [left|].
    destruct (IH (λ d y t Ht Hy, Hbody d y t Ht (list_elem_of_further _ _ _ Hy))
                 (done ++ [x]) s1 H1) as (s' & Hf & H').
    exists s'. cbn [for_st]. unfold sbind. rewrite Hb.
    split; [done|]. by rewrite <- app_assoc in H'.
Qed.

Lemma add_edge_entries n self a b dep r c :
  square n (pheromones self) →
  norm_index (Z.of_nat n) a = Some r →
  norm_index (Z.of_nat n) b = Some c →
  ∃ P2,
    (_ <~ add_pheromone a b dep;; add_pheromone b a dep) self
    = (Ok tt, set_pheromones self P2)
    ∧ square n P2
    ∧ ∀ i j v, entry (pheromones self) i j = Some v →
        ∃ v', entry P2 i j = Some v'
              ∧ (v' == v + dep * edge_hits n i j (a, b))%Q.
Proof.
  intros Hsq Ha Hb.
  pose proof (norm_index_lt _ _ _ Ha) as Hr.
  pose proof (norm_index_lt _ _ _ Hb) as Hc.
  destruct (square_entry n _ r c Hsq Hr Hc) as [v0 Hv0].
  pose proof (square_mset n _ r c (v0 + dep) Hsq) as Hsq1.
  destruct (square_entry n _ c r Hsq1 Hc Hr) as [v1 Hv1].
  exists (mset (mset (pheromones self) r c (v0 + dep)) c r (v1 + dep)).
  split_and!.
  - unfold sbind. rewrite (add_pheromone_square n) by done.
    rewrite Ha, Hb, Hv0.
    rewrite (add_pheromone_square n) by done.
    cbn [pheromones set_pheromones]. by rewrite Hb, Ha, Hv1.
  - by apply square_mset.
  - intros i j v Hv.
    rewrite (entry_mset _ r c) in Hv1 by (by rewrite Hv0).
    rewrite (entry_mset _ c r) by (by rewrite entry_mset, Hv1 by (by rewrite Hv0)).
    rewrite (entry_mset _ r c) by (by rewrite Hv0).
    unfold edge_hits, hit. cbn [fst snd]. rewrite Ha, Hb.
    repeat case_decide; destruct_and?; simplify_eq; eexists; (split; [done|]);
      try ring; exfalso; naive_solver.
Qed.

Lemma deposit_tour_entries n self tour distance :
  square n (pheromones self) →
  (∀ c, c ∈ tour → is_Some (norm_index (Z.of_nat n) c)) →
  ∃ self',
    deposit_tour tour distance self = (Ok tt, self')
    ∧ frame self self'
    ∧ square n (pheromones self')
    ∧ ∀ i j v, entry (pheromones self) i j = Some v →
        ∃ v', entry (pheromones self') i j = Some v'
              ∧ (v' == v + tour_deposit n (Q_ self) i j (tour, distance))%Q.
Proof.
  intros Hsq Hvalid. rewrite deposit_tour_consecutive.
  set (dep := (Q_ self / distance)%Q).
  destruct (for_st_ok
    (λ done s,
       frame self s ∧ square n (pheromones s)
       ∧ ∀ i j v, entry (pheromones self) i j = Some v →
           ∃ v', entry (pheromones s) i j = Some v'
                 ∧ (v' == v + dep * Qsum (map (edge_hits n i j) done))%Q)
    (consecutive tour)
    (λ ab, _ <~ add_pheromone ab.1 ab.2 dep;; add_pheromone ab.2 ab.1 dep))
    with (done := @nil (Z * Z)) (s := self) as (self' & Hrun & Hf & Hsq' & Hent).
  - intros done [a b] s (Hf & Hs & Hent) Hin.
    apply elem_of_consecutive in Hin as [Ha Hb].
    destruct (Hvalid a Ha) as [r Hr]. destruct (Hvalid b Hb) as [c Hc].
    destruct (add_edge_entries n s a b dep r c Hs Hr Hc) as (P2 & Hrun & Hs2 & He2).
    exists (set_pheromones s P2). split; [exact Hrun|]. split_and!.
    + eapply frame_trans; [exact Hf|apply frame_set].
    + done.
    + intros i j v Hv. destruct (Hent i j v Hv) as (v1 & Hv1 & Heq1).
      destruct (He2 i j v1 Hv1) as (v2 & Hv2 & Heq2).
      exists v2. split; [done|].
      rewrite Heq2, Heq1, map_app. cbn [map]. rewrite Qsum_snoc. ring.
  - split_and!; [apply frame_refl|done|].
    intros i j v Hv. exists v. split; [done|]. unfold Qsum; simpl. ring.
  - exists self'. split_and!; [done..|].
    intros i j v Hv. destruct (Hent i j v Hv) as (v' & Hv' & Heq).
    exists v'. split; [done|]. by rewrite Heq.
Qed.

(** C6. On an N x N pheromone matrix, for tours over valid indices with
    strictly positive lengths, [update_pheromones] returns, changes nothing
    but the pheromone matrix, and leaves in every cell its former content
    multiplied by [1 - rho], plus [Q / distance] for every consecutive pair
    [(a, b)] of every tour that addresses the cell as [(a, b)] or as
    [(b, a)]. *)
Theorem update_pheromones_entries (n : nat) (self : engine)
    (all_tours : list (list Z * Q)) :
  square n (pheromones self) →
  (∀ tour d c, (tour, d) ∈ all_tours → c ∈ tour →
     is_Some (norm_index (Z.of_nat n) c)) →
  Forall (λ td : list Z * Q, 0 < td.2)%Q all_tours →
  ∃ self',
    update_pheromones all_tours self = (Ok tt, self')
    ∧ self' = set_pheromones self (pheromones self')
    ∧ square n (pheromones self')
    ∧ ∀ i j v, entry (pheromones self) i j = Some v →
        ∃ v', entry (pheromones self') i j = Some v'
              ∧ (v' == updated_entry n (evaporation_rate self) (Q_ self)
                                     all_tours i j v)%Q.
Proof.
  intros Hsq Hvalid _. unfold update_pheromones, sbind, evaporate.
  set (rho := evaporation_rate self).
  set (E := set_pheromones self (map (map (λ p, p * (1 - rho))%Q) (pheromones self))).
  destruct (for_st_ok
    (λ done s,
       frame self s ∧ square n (pheromones s)
       ∧ ∀ i j v, entry (pheromones self) i j = Some v →
           ∃ v', entry (pheromones s) i j = Some v'
                 ∧ (v' == v * (1 - rho)
                          + Qsum (map (tour_deposit n (Q_ self) i j) done))%Q)
    all_tours (λ '(tour, distance), deposit_tour tour distance))
    with (done := @nil (list Z * Q)) (s := E)
    as (self' & Hrun & Hf & Hsq' & Hent).
  - intros done [tour d] s (Hf & Hs & Hent) Hin.
    destruct (deposit_tour_entries n s tour d Hs) as (s' & Hrun & Hf' & Hs' & He').
    { intros c Hc. by eapply Hvalid. }
    exists s'. split; [exact Hrun|]. split_and!.
    + by eapply frame_trans.
    + done.
    + intros i j v Hv. destruct (Hent i j v Hv) as (v1 & Hv1 & Heq1).
      destruct (He' i j v1 Hv1) as (v2 & Hv2 & Heq2).
      exists v2. split; [done|].
      rewrite Heq2, Heq1, map_app. cbn [map]. rewrite Qsum_snoc.
      rewrite Hf. cbn [Q_ set_pheromones]. ring.
  - split_and!; [apply frame_set|by apply square_map|].
    intros i j v Hv. exists (v * (1 - rho))%Q. split.
    + subst E. cbn [pheromones set_pheromones]. by rewrite entry_map, Hv.
    + unfold Qsum; simpl. ring.
  - exists self'. split_and!; [done..|].
    intros i j v Hv. destruct (Hent i j v Hv) as (v' & Hv' & Heq).
    exists v'. split; [done|]. by rewrite Heq.
Qed.

(** * Concrete runs *)

Lemma roulette_elem cities probs u c : roulette cities probs u = Some c → c ∈ cities.
Proof.
  revert probs u. induction cities as [|x cities IH]; intros [|p probs] u;
    simpl; try done.
  destruct (Qltb u p).
  - intros [= ->]. left.
  - intros H. right. by eapply IH.
Qed.

(** The concrete source returns a city of the population it is given. *)
Lemma np_choice_elem cities probs g c g' :
  np_choice cities probs g = (Ok c, g') → c ∈ cities.
Proof.
  unfold np_choice.
  destruct (Nat.eqb (length cities) 0); [done|].
  destruct (negb (Nat.eqb (length cities) (length probs))); [done|].
  destruct (negb (forallb (Qle_bool 0) probs)); [done|].
  destruct (negb (Qeq_bool (Qsum probs) 1)); [done|].
  destruct (roulette cities probs (uniform g)) as [c'|] eqn:Hr; [|done].
  intros [= <- <-]. by eapply roulette_elem.
Qed.

(** Four cities at the corners of a 3 x 4 rectangle. *)
Definition rect_matrix : list (list Q) :=
  [[0; 3; 5; 4]; [3; 0; 4; 5]; [5; 4; 0; 3]; [4; 5; 3; 0]]%Q.

(** The engine [AntColonyOptimization(rect_matrix, 3, 1, 2, 0.5, 100)]. *)
Definition rect_engine : engine :=
  Engine rect_matrix 4 3 1 2 (1 # 2) 100 (ones 4) None Inf [].

Lemma rect_engine_init : __init__ rect_matrix 3 1 2 (1 # 2) 100 = Ok rect_engine.
Proof. reflexivity. Qed.

Lemma rect_engine_well_formed : well_formed rect_engine.
Proof.
  split; [reflexivity| |]; (split; [reflexivity|]); intros row Hrow;
    repeat (apply elem_of_cons in Hrow as [->|Hrow]; [reflexivity|]);
    by apply elem_of_nil in Hrow.
Qed.

(** The engine after one generation from city 0 to city 2 with seed 42. *)
Definition rect_engine_1 : engine :=
  (run_iteration np_choice pow_int 0 2 (rect_engine, 42)).2.1.

Lemma rect_engine_positive_lengths :
  positive_lengths np_choice pow_int rect_engine 0 2 42.
Proof.
  intros all_tours w H. vm_compute in H. injection H as <- _.
  repeat (constructor; [reflexivity|]). constructor.
Qed.

Lemma construct_solution_permutation_witness :
  [0; 1; 3; 2] ≡ₚ range 4
  ∧ NoDup [0; 1; 3; 2]
  ∧ len [0; 1; 3; 2] = 4
  ∧ getitem [0; 1; 3; 2] 0 = Ok 0
  ∧ getitem [0; 1; 3; 2] (4 - 1) = Ok 2.
Proof.
  apply (construct_solution_permutation np_choice pow_int np_choice_elem
           rect_engine 0 2 42 [0; 1; 3; 2] 1116302264).
  - simpl. lia.
  - simpl. lia.
  - lia.
  - vm_compute. reflexivity.
Defined.

Lemma fallback_never_taken_witness :
  last [0; 1; 3; 2] = Some 2
  ∧ length (filter (λ c, c = 2) [0; 1; 3; 2]) = 1%nat
  ∧ ∃ body, [0; 1; 3; 2] = body ++ [2] ∧ 2 ∉ body.
Proof.
  apply (proj2 (fallback_never_taken np_choice pow_int np_choice_elem
                  rect_engine 0 2
                  ltac:(simpl; lia) ltac:(simpl; lia) ltac:(simpl; lia)
                  ltac:(lia))
               42 [0; 1; 3; 2] 1116302264).
  vm_compute. reflexivity.
Defined.


Lemma rect_engine_after_one_call :
  ∀ ok : engine → Z → Z → Z → Prop,
    ok rect_engine 0 2 42 →
    after_calls np_choice pow_int ok rect_engine 1 rect_engine_1.
Proof.
  intros ok Hok.
  apply (calls_returned np_choice pow_int ok rect_engine 0 rect_engine 0 2 42
           (Some [0; 1; 3; 2], Real 11, 33 # 3) rect_engine_1 71666532);
    [apply calls_none|exact Hok|].
  vm_compute. reflexivity.
Qed.

Lemma best_distance_monotone_witness :
  length (history rect_engine_1) = 1%nat
  ∧ nonincreasing (history rect_engine_1).
Proof.
  apply (proj2 (best_distance_monotone np_choice pow_int)
           rect_matrix 3 1%Q 2%Q (1 # 2)%Q 100%Q rect_engine 1%nat rect_engine_1).
  - reflexivity.
  - apply rect_engine_after_one_call. exact I.
Defined.

Lemma pheromones_symmetric_nonneg_witness :
  ∃ v, getitem2 (pheromones rect_engine_1) 1 3 = Ok v
       ∧ getitem2 (pheromones rect_engine_1) 3 1 = Ok v
       ∧ (0 <= v)%Q.
Proof.
  apply (pheromones_symmetric_nonneg np_choice pow_int
           rect_matrix 3 1%Q 2%Q (1 # 2)%Q 100%Q rect_engine 1%nat rect_engine_1 1 3).
  - split; reflexivity.
  - reflexivity.
  - reflexivity.
  - apply rect_engine_after_one_call, rect_engine_positive_lengths.
  - split; [discriminate|reflexivity].
  - split; [discriminate|reflexivity].
Defined.

Lemma run_iteration_out_of_range_witness :
  ∃ x g',
    run_iteration np_choice pow_int 0 7 (rect_engine, 42)
    = (Raise x, (rect_engine, g'))
    ∧ (x = IndexError ∨ sampler_raises np_choice x)
    ∧ (num_cities rect_engine ≤ 0 → x = IndexError ∧ g' = 42).
Proof.
  apply (run_iteration_out_of_range np_choice pow_int 0 7 rect_engine 42).
  - exact rect_engine_well_formed.
  - discriminate.
  - right. discriminate.
Defined.

(** A call with the start city as end city is not rejected: it returns a
    tour that leaves out a city, and records it. *)
Lemma run_iteration_same_end_points :
  ∃ self' g',
    run_iteration np_choice pow_int 0 0 (rect_engine, 42)
    = (Ok (Some [0; 2; 3; 0], Real 12, 36 # 3), (self', g'))
    ∧ best_tour self' = Some [0; 2; 3; 0]
    ∧ history self' = [Real 12]
    ∧ self' ≠ rect_engine.
Proof.
  eexists _, _. split; [vm_compute; reflexivity|].
  split_and!; [reflexivity..|discriminate].
Qed.

(** A matrix of two cities, and one that is not square, are accepted. *)
Lemma init_accepts_small_and_ragged :
  (len [[0; 1]; [1; 0]]%Q < 3
   ∧ ∃ self, __init__ [[0; 1]; [1; 0]]%Q 10 1 5 (1 # 2) 100 = Ok self)
  ∧ (¬ square 1 [[0; 1; 2]]%Q
     ∧ ∃ self, __init__ [[0; 1; 2]]%Q 10 1 5 (1 # 2) 100 = Ok self).
Proof.
  split; split.
  - reflexivity.
  - by eexists.
  - intros [_ H]. specialize (H [0; 1; 2]%Q). simpl in H.
    assert (3 = 1)%nat as Habs by (apply H; left). discriminate.
  - by eexists.
Qed.

Lemma update_pheromones_entries_witness :
  ∃ self',
    update_pheromones [([0; 1; 3; 2], 11%Q)] rect_engine = (Ok tt, self')
    ∧ self' = set_pheromones rect_engine (pheromones self')
    ∧ square 4 (pheromones self')
    ∧ ∀ i j v, entry (pheromones rect_engine) i j = Some v →
        ∃ v', entry (pheromones self') i j = Some v'
              ∧ Qeq v' (updated_entry 4 (1 # 2) 100
                                      [([0; 1; 3; 2], 11%Q)] i j v).
Proof.
  apply (update_pheromones_entries 4 rect_engine [([0; 1; 3; 2], 11%Q)]).
  - apply (square_ones 4). lia.
  - intros tour d c Hin Hc. apply list_elem_of_singleton in Hin.
    injection Hin as -> ->.
    repeat (apply elem_of_cons in Hc as [->|Hc]; [by eexists|]).
    by apply elem_of_nil in Hc.
  - repeat constructor.
Defined.

(** * Further properties of the engine *)

(** ** The walk of an ant, whatever the end city *)

Section Walk.

Context {rng : Type}.
Variable choice : list Z → list Q → St rng Z.
Variable fpow : Q → Q → Q.
Variable self : engine.
Variables start_city end_city : Z.

(** The loop stops exactly when the tour holds [N - 1] cities, or at once
    if it already holds more: no assumption on the random source. *)
Lemma build_tour_length fuel tour visited cur g body g' :
  num_cities self - 1 - len tour ≤ Z.of_nat fuel →
  build_tour choice fpow fuel self end_city tour visited cur g = (Ok body, g') →
  len body = Z.max (len tour) (num_cities self - 1).
Proof.
  revert tour visited cur g.
  induction fuel as [|fuel IH]; intros tour visited cur g Hfuel;
    cbn [build_tour]; destruct (len tour <? num_cities self - 1) eqn:Hguard;
    try (intros [= <- <-]; lia).
  unfold sbind.
  destruct (select_next_city choice fpow self cur visited end_city g)
    as [[c|e] g1]; [|done].
  intros Hb. apply IH in Hb.
  - rewrite Hb, len_app. unfold len at 2. simpl. lia.
  - rewrite len_app. unfold len at 2. simpl. lia.
Qed.

(** X1. A tour returned by [construct_solution] holds [max(N, 2)] cities,
    for every start and end city and every random source. *)
Theorem construct_solution_length (g : rng) (tour : list Z) (g' : rng) :
  construct_solution choice fpow self start_city end_city g = (Ok tour, g') →
  len tour = Z.max (num_cities self) 2.
Proof.
  unfold construct_solution, sbind, sret.
  destruct (build_tour choice fpow (Z.to_nat (num_cities self)) self end_city
              [start_city] {[start_city]} start_city g)
    as [[body|e] g1] eqn:Hb; [|done].
  intros [= <- <-]. apply build_tour_length in Hb.
  - rewrite len_app, Hb. unfold len. simpl. lia.
  - unfold len. simpl. lia.
Qed.

Hypothesis choice_elem :
  ∀ cities probs g c g', choice cities probs g = (Ok c, g') → c ∈ cities.

(** What holds of the tour under construction when only the start city is
    known to be valid. *)
Record walk_inv (tour : list Z) (visited : gset Z) (cur : Z) : Prop := {
  walk_nodup : NoDup tour;
  walk_visited : ∀ c, c ∈ visited ↔ c ∈ tour;
  walk_range : ∀ c, c ∈ tour → 0 ≤ c < num_cities self;
  walk_head : head tour = Some start_city;
  walk_cur : cur ∈ tour
}.

Lemma walk_inv_entry :
  0 ≤ start_city < num_cities self →
  walk_inv [start_city] {[start_city]} start_city.
Proof.
  intros Hs. split.
  - apply NoDup_singleton.
  - intros c. by rewrite elem_of_singleton, list_elem_of_singleton.
  - intros c Hc. apply list_elem_of_singleton in Hc. by subst.
  - done.
  - left.
Qed.

Lemma walk_inv_step tour visited cur c :
  walk_inv tour visited cur →
  c ∈ candidates self visited end_city →
  walk_inv (tour ++ [c]) ({[c]} ∪ visited) c.
Proof.
  intros [Hnd Hvis Hrg Hhd Hcur] Hc.
  apply list_elem_of_filter in Hc as [[Hcv Hce] Hcr].
  apply elem_of_seqZ in Hcr.
  split.
  - apply NoDup_app. split_and!; [done| |apply NoDup_singleton].
    intros x Hx Hxc. apply list_elem_of_singleton in Hxc. subst.
    by apply Hcv, Hvis.
  - intros x. rewrite elem_of_union, elem_of_singleton, elem_of_app,
      list_elem_of_singleton, Hvis. tauto.
  - intros x Hx. apply elem_of_app in Hx as [Hx|Hx]; [by apply Hrg|].
    apply list_elem_of_singleton in Hx. subst. lia.
  - destruct tour; [done|]. done.
  - apply elem_of_app. right. left.
Qed.

(** A step of the loop keeps the invariant. *)
Lemma walk_inv_select tour visited cur g c g' :
  walk_inv tour visited cur →
  len tour < num_cities self - 1 →
  select_next_city choice fpow self cur visited end_city g = (Ok c, g') →
  walk_inv (tour ++ [c]) ({[c]} ∪ visited) c.
Proof.
  intros Hinv Hlen Hsel. apply (walk_inv_step tour visited cur); [done|].
  apply (select_next_city_elem choice fpow choice_elem) in Hsel
    as [[Hnil _]|Hc]; [|done].
  exfalso. eapply (candidates_nonempty self end_city tour); [|exact Hlen|exact Hnil].
  intros x. by apply Hinv.
Qed.

Lemma build_tour_walk fuel tour visited cur g body g' :
  walk_inv tour visited cur →
  build_tour choice fpow fuel self end_city tour visited cur g = (Ok body, g') →
  ∃ visited' cur', walk_inv body visited' cur'.
Proof.
  revert tour visited cur g.
  induction fuel as [|fuel IH]; intros tour visited cur g Hinv;
    cbn [build_tour]; destruct (len tour <? num_cities self - 1) eqn:Hguard;
    try (intros [= <- <-]; by eexists _, _).
  unfold sbind.
  destruct (select_next_city choice fpow self cur visited end_city g)
    as [[c|e] g1] eqn:Hsel; [|done].
  apply IH. eapply walk_inv_select; [done|lia|done].
Qed.

(** The tour without its last city: the walk, which satisfies the
    invariant and has the length the loop guard gives it. *)
Lemma construct_solution_walk g tour g' :
  0 ≤ start_city < num_cities self →
  construct_solution choice fpow self start_city end_city g = (Ok tour, g') →
  ∃ body visited cur,
    tour = body ++ [end_city] ∧ walk_inv body visited cur
    ∧ len body = Z.max 1 (num_cities self - 1).
Proof.
  intros Hs. unfold construct_solution, sbind, sret.
  destruct (build_tour choice fpow (Z.to_nat (num_cities self)) self end_city
              [start_city] {[start_city]} start_city g)
    as [[body|e] g1] eqn:Hb; [|done].
  intros [= <- <-].
  pose proof Hb as Hlen. apply build_tour_length in Hlen;
    [|unfold len; simpl; lia].
  apply build_tour_walk in Hb as (visited & cur & Hinv);
    [|by apply walk_inv_entry].
  exists body, visited, cur. split_and!; [done..|].
  rewrite Hlen. unfold len. simpl. lia.
Qed.

(** X2. With the start city given as end city too, the returned tour
    starts and ends there; the [N - 1] cities before the last are distinct,
    and one city of [range(N)] is left out. *)
Theorem construct_solution_same_city (g : rng) (tour : list Z) (g' : rng) :
  start_city = end_city →
  2 ≤ num_cities self →
  0 ≤ start_city < num_cities self →
  construct_solution choice fpow self start_city end_city g = (Ok tour, g') →
  ∃ body,
    tour = body ++ [start_city]
    ∧ head body = Some start_city
    ∧ NoDup body
    ∧ len body = num_cities self - 1
    ∧ ∃ missing, 0 ≤ missing < num_cities self ∧ missing ∉ tour.
Proof.
  intros Heq Hn Hs Hc.
  apply construct_solution_walk in Hc as (body & visited & cur & -> & Hinv & Hlen);
    [|done].
  destruct Hinv as [Hnd Hvis Hrg Hhd Hcur].
  exists body. rewrite <- Heq. split_and!; [done..|lia|].
  destruct (filter (λ c, c ∉ body) (range (num_cities self))) as [|m rest] eqn:Hf.
  - exfalso.
    assert (range (num_cities self) ⊆+ body) as Hsub.
    { apply NoDup_submseteq; [apply NoDup_seqZ|].
      intros c Hc. destruct (decide (c ∈ body)) as [|Hn']; [done|].
      exfalso. by eapply (filter_nil_not_elem_of _ _ c Hf). }
    apply submseteq_length in Hsub. unfold range in Hsub.
    rewrite length_seqZ in Hsub. unfold len in Hlen. lia.
  - assert (m ∈ filter (λ c, c ∉ body) (range (num_cities self))) as Hm
      by (rewrite Hf; left).
    apply list_elem_of_filter in Hm as [Hmb Hmr]. apply elem_of_seqZ in Hmr.
    exists m. split; [lia|].
    intros Hin. apply elem_of_app in Hin as [?|Hin]; [done|].
    apply list_elem_of_singleton in Hin. subst m.
    apply Hmb. destruct body; [done|]. simpl in Hhd. injection Hhd as ->. left.
Qed.

End Walk.

(** ** What can raise *)

Lemma Forall2_build {A B} (P : A → B → Prop) (l : list A) :
  (∀ a, a ∈ l → ∃ b, P a b) → ∃ bs, Forall2 P l bs.
Proof.
  induction l as [|a l IH]; intros H; [by exists []|].
  destruct (H a) as [b Hb]; [left|].
  destruct IH as [bs Hbs]; [intros x Hx; apply H; by right|].
  exists (b :: bs). by constructor.
Qed.

Lemma well_formed_size self : well_formed self →
  Z.of_nat (Z.to_nat (num_cities self)) = num_cities self.
Proof. intros [Hn _ _]. rewrite Z2Nat.id; [done|]. rewrite Hn. apply len_nonneg. Qed.

Lemma getitem2_valid n (m : list (list Q)) i j :
  square n m →
  is_Some (norm_index (Z.of_nat n) i) → is_Some (norm_index (Z.of_nat n) j) →
  ∃ v, getitem2 m i j = Ok v.
Proof.
  intros Hsq [r Hr] [c Hc]. rewrite (getitem2_square n) by done.
  rewrite Hr, Hc.
  destruct (square_entry n m r c Hsq) as [v ->];
    [by eapply norm_index_lt..|]. by exists v.
Qed.

(** The length of a path over valid indices is defined, and not negative
    when no matrix entry is. *)
Lemma path_length_valid n dm tour :
  square n dm →
  (∀ c, c ∈ tour → is_Some (norm_index (Z.of_nat n) c)) →
  ∃ d, path_length dm tour = Ok d
       ∧ ((∀ i j v, getitem2 dm i j = Ok v → (0 <= v)%Q) → (0 <= d)%Q).
Proof.
  intros Hsq. induction tour as [|a tour IH]; intros Hvalid.
  { exists 0%Q. split; [done|]. intros _. apply Qle_refl. }
  destruct tour as [|b rest].
  { exists 0%Q. split; [done|]. intros _. apply Qle_refl. }
  rewrite path_length_cons.
  destruct (getitem2_valid n dm a b Hsq) as [v Hv];
    [apply Hvalid; left|apply Hvalid; right; left|].
  destruct IH as (s & Hs & Hnn); [intros c Hc; apply Hvalid; by right|].
  rewrite Hv, Hs. cbn [rbind]. exists (v + s)%Q. split; [done|].
  intros Hdm. specialize (Hnn Hdm). apply Hdm in Hv. lra.
Qed.

Lemma calculate_distance_valid self tour :
  well_formed self →
  (∀ c, c ∈ tour → is_Some (norm_index (num_cities self) c)) →
  ∃ d, calculate_distance self tour = Ok d
       ∧ ((∀ i j v, getitem2 (distance_matrix self) i j = Ok v → (0 <= v)%Q) →
          (0 <= d)%Q).
Proof.
  intros Hwf Hvalid. pose proof Hwf as [_ Hdm _].
  destruct (path_length_valid _ _ tour Hdm) as (s & Hs & Hnn).
  { by rewrite well_formed_size. }
  pose proof (calculate_distance_path_length self tour) as Heq.
  rewrite Hs in Heq.
  destruct (calculate_distance self tour) as [d|]; simpl in Heq; [|done].
  exists d. split; [done|]. intros H. rewrite Heq. by apply Hnn.
Qed.

(** X3. On an engine with square matrices, [calculate_distance] of a tour
    over valid indices returns, and returns a number that is not negative
    when no entry of the distance matrix is. *)
Theorem calculate_distance_nonneg (self : engine) (tour : list Z) :
  well_formed self →
  (∀ c, c ∈ tour → is_Some (norm_index (num_cities self) c)) →
  (∀ i j v, getitem2 (distance_matrix self) i j = Ok v → (0 <= v)%Q) →
  ∃ d, calculate_distance self tour = Ok d ∧ (0 <= d)%Q.
Proof.
  intros Hwf Hvalid Hnn.
  destruct (calculate_distance_valid self tour Hwf Hvalid) as (d & Hd & H).
  exists d. split; [done|by apply H].
Qed.

Section Robust.

Context {rng : Type}.
Variable choice : list Z → list Q → St rng Z.
Variable fpow : Q → Q → Q.
Hypothesis choice_elem :
  ∀ cities probs g c g', choice cities probs g = (Ok c, g') → c ∈ cities.

Lemma candidate_weights_valid self cur visited end_city :
  well_formed self → 0 ≤ cur < num_cities self →
  ∃ probs, candidate_weights fpow self cur visited end_city = Ok probs.
Proof.
  intros Hwf Hcur. pose proof Hwf as [_ Hdm Hph].
  pose proof (well_formed_size self Hwf) as Hsize.
  destruct (Forall2_build (λ c w, weight fpow self cur c = Ok w)
              (candidates self visited end_city)) as [ws Hws].
  - intros c Hc. apply list_elem_of_filter in Hc as [_ Hc].
    apply elem_of_seqZ in Hc. unfold weight.
    destruct (getitem2_valid _ (pheromones self) cur c Hph) as [p ->];
      [rewrite Hsize, norm_index_range by lia; by eexists..|].
    destruct (getitem2_valid _ (distance_matrix self) cur c Hdm) as [d ->];
      [rewrite Hsize, norm_index_range by lia; by eexists..|].
    by eexists.
  - eexists. by apply candidate_weights_ok.
Qed.

Lemma select_next_city_raises self cur visited end_city g x g' :
  well_formed self → 0 ≤ cur < num_cities self →
  select_next_city choice fpow self cur visited end_city g = (Raise x, g') →
  sampler_raises choice x.
Proof.
  intros Hwf Hcur. unfold select_next_city, sbind, lift.
  destruct (candidate_weights_valid self cur visited end_city Hwf Hcur)
    as [probs ->].
  destruct probs; [done|]. intros Hc. by eexists _, _, _, _.
Qed.

Lemma build_tour_raises fuel self start_city end_city tour visited cur g x g' :
  well_formed self →
  walk_inv self start_city tour visited cur →
  build_tour choice fpow fuel self end_city tour visited cur g = (Raise x, g') →
  sampler_raises choice x.
Proof.
  intros Hwf. revert tour visited cur g.
  induction fuel as [|fuel IH]; intros tour visited cur g Hinv;
    cbn [build_tour]; destruct (len tour <? num_cities self - 1) eqn:Hguard;
    try done.
  unfold sbind.
  destruct (select_next_city choice fpow self cur visited end_city g)
    as [[c|e] g1] eqn:Hsel.
  - apply IH.
    eapply (walk_inv_select choice fpow self start_city end_city choice_elem);
      [done|lia|done].
  - intros [= <- <-]. eapply select_next_city_raises; [done| |done].
    destruct Hinv as [_ _ Hrg _ Hcur]. by apply Hrg.
Qed.

Lemma construct_solution_only_sampler self start_city end_city g x g' :
  well_formed self →
  0 ≤ start_city < num_cities self →
  construct_solution choice fpow self start_city end_city g = (Raise x, g') →
  sampler_raises choice x.
Proof.
  intros Hwf Hs. unfold construct_solution, sbind, sret.
  destruct (build_tour choice fpow (Z.to_nat (num_cities self)) self end_city
              [start_city] {[start_city]} start_city g)
    as [[body|e] g1] eqn:Hb; [done|].
  intros [= <- <-]. eapply build_tour_raises; [done| |done].
  by apply walk_inv_entry.
Qed.

(** X4. On an engine with square matrices and a start city in range,
    [construct_solution] raises only what the random source raises: it
    makes no lookup out of range, whatever the end city. *)
Theorem construct_solution_raises (self : engine) (start_city end_city : Z)
    (g : rng) (x : exn) (g' : rng) :
  well_formed self →
  0 ≤ start_city < num_cities self →
  construct_solution choice fpow self start_city end_city g = (Raise x, g') →
  sampler_raises choice x.
Proof. apply construct_solution_only_sampler. Qed.

End Robust.

(** ** What a generation returns *)

Lemma lt_best_false d best : lt_best d best = false → ext_le best (Real d).
Proof.
  destruct best as [b|]; simpl; [|done].
  unfold Qltb. rewrite negb_false_iff. apply Qle_bool_iff.
Qed.

Section Outcome.

Context {rng : Type}.
Variable choice : list Z → list Q → St rng Z.
Variable fpow : Q → Q → Q.

(** The ants that return leave one recorded pair each, none of them
    shorter than the best distance they leave. *)
Lemma ants_bound n start_city end_city acc self g all_tours self' g' :
  ants choice fpow n start_city end_city acc (self, g)
  = (Ok all_tours, (self', g')) →
  ∃ new, all_tours = acc ++ new ∧ length new = n
         ∧ Forall (λ td : list Z * Q, ext_le (best_distance self') (Real td.2)) new.
Proof.
  revert acc self g. induction n as [|n IH]; intros acc self g.
  - cbn [ants]. intros [= <- <- <-]. exists []. by rewrite app_nil_r.
  - cbn [ants]. unfold sbind at 1, reading at 1.
    destruct (construct_solution choice fpow self start_city end_city g)
      as [[tour|e] g1]; [|done].
    unfold sbind at 1, reading at 1, lift.
    destruct (calculate_distance self tour) as [d|e]; [|done].
    unfold sbind at 1, mutating at 1.
    destruct (lt_best d (best_distance self)) eqn:Hlt; intros Hrest.
    + pose proof (ants_outcome _ _ _ _ _ _ _ _ _ _ _ Hrest)
        as (_ & new0 & _ & Himp).
      apply improved_le in Himp.
      apply IH in Hrest as (new & -> & Hlen & Hall).
      exists ((tour, d) :: new). rewrite <- app_assoc.
      split_and!; [done|simpl; lia|]. by constructor.
    + pose proof (ants_outcome _ _ _ _ _ _ _ _ _ _ _ Hrest)
        as (_ & new0 & _ & Himp).
      apply improved_le in Himp.
      apply IH in Hrest as (new & -> & Hlen & Hall).
      exists ((tour, d) :: new). rewrite <- app_assoc.
      split_and!; [done|simpl; lia|]. constructor; [|done].
      eapply ext_le_trans; [exact Himp|]. by apply lt_best_false.
Qed.

(** A call changes neither the distance matrix nor a parameter. *)
Lemma run_iteration_config start_city end_city self g r self' g' :
  run_iteration choice fpow start_city end_city (self, g) = (r, (self', g')) →
  distance_matrix self' = distance_matrix self
  ∧ num_cities self' = num_cities self
  ∧ num_ants self' = num_ants self
  ∧ alpha self' = alpha self ∧ beta self' = beta self
  ∧ evaporation_rate self' = evaporation_rate self
  ∧ Q_ self' = Q_ self.
Proof.
  intros Hrun. apply run_iteration_phases in Hrun as (ra & e1 & Ha & Hrest).
  pose proof (ants_outcome _ _ _ _ _ _ _ _ _ _ _ Ha) as (Hbf & _).
  destruct ra as [all_tours|x].
  - destruct Hrest as (ru & e2 & Hu & Hrest).
    apply update_pheromones_frame in Hu.
    destruct ru as [[]|x]; destruct Hrest as [H1 H2]; subst;
      rewrite Hu, Hbf; done.
  - destruct Hrest as [_ ->]. by rewrite Hbf.
Qed.

(** X5. A call of [run_iteration] that returns, returns the best tour and
    the best distance of the engine as the call leaves it, and this best
    distance is the last entry of the history. *)
Theorem run_iteration_returns_state (start_city end_city : Z) (self : engine)
    (g : rng) (bt : option (list Z)) (bd : ext) (avg : Q)
    (self' : engine) (g' : rng) :
  run_iteration choice fpow start_city end_city (self, g)
  = (Ok (bt, bd, avg), (self', g')) →
  bt = best_tour self' ∧ bd = best_distance self'
  ∧ last (history self') = Some bd
  ∧ length (history self') = S (length (history self)).
Proof.
  intros Hrun.
  pose proof (run_iteration_best _ _ _ _ _ _ _ _ _ Hrun) as (Hh & _).
  apply run_iteration_phases in Hrun as (ra & e1 & Ha & Hrest).
  destruct ra as [all_tours|x]; [|by destruct Hrest].
  destruct Hrest as (ru & e2 & Hu & Hrest).
  destruct ru as [[]|x]; [|by destruct Hrest].
  destruct Hrest as [-> Heq]. injection Heq as Hbt Hbd Havg. subst bt bd avg.
  split_and!; [done|done| |].
  - cbn [history append_history best_distance]. apply last_snoc.
  - rewrite Hh, length_app. simpl. lia.
Qed.

(** X6. The best distance that a call returns is at most the length of
    every tour that its ants have built, one tour for each ant. *)
Theorem run_iteration_best_le_tours (start_city end_city : Z) (self : engine)
    (g : rng) (bt : option (list Z)) (bd : ext) (avg : Q)
    (self' : engine) (g' : rng) :
  run_iteration choice fpow start_city end_city (self, g)
  = (Ok (bt, bd, avg), (self', g')) →
  ∃ all_tours e1,
    ants choice fpow (Z.to_nat (num_ants self)) start_city end_city []
         (self, g) = (Ok all_tours, (e1, g'))
    ∧ length all_tours = Z.to_nat (num_ants self)
    ∧ Forall (λ td : list Z * Q, ext_le bd (Real td.2)) all_tours.
Proof.
  intros Hrun.
  apply run_iteration_phases in Hrun as (ra & e1 & Ha & Hrest).
  destruct ra as [all_tours|x]; [|by destruct Hrest].
  destruct Hrest as (ru & e2 & Hu & Hrest).
  destruct ru as [[]|x]; [|by destruct Hrest].
  destruct Hrest as [_ Heq]. injection Heq as Hbt Hbd Havg. subst bt bd avg.
  apply update_pheromones_frame in Hu. rewrite Hu.
  cbn [best_distance set_pheromones].
  exists all_tours, e1. split; [done|].
  apply ants_bound in Ha as (new & -> & Hlen & Hall). done.
Qed.

(** X7. With no ant (a count of zero or less), a call returns, keeps the
    best tour and distance, appends the best distance to the history and
    multiplies every pheromone by [1 - rho]. *)
Theorem run_iteration_no_ants (start_city end_city : Z) (self : engine) (g : rng) :
  num_ants self ≤ 0 →
  ∃ avg self',
    run_iteration choice fpow start_city end_city (self, g)
    = (Ok (best_tour self, best_distance self, avg), (self', g))
    ∧ best_tour self' = best_tour self
    ∧ best_distance self' = best_distance self
    ∧ history self' = history self ++ [best_distance self]
    ∧ pheromones self'
      = map (map (λ p, p * (1 - evaporation_rate self))%Q) (pheromones self).
Proof.
  intros Hants. unfold run_iteration, sbind at 1, reading at 1, sret at 1.
  replace (Z.to_nat (num_ants self)) with 0%nat by lia.
  by eexists _, _.
Qed.

End Outcome.

(** ** Calls on valid end points, and the life of an engine *)

Lemma update_pheromones_returns n self all_tours :
  square n (pheromones self) →
  (∀ td c, td ∈ all_tours → c ∈ td.1 → is_Some (norm_index (Z.of_nat n) c)) →
  ∃ self', update_pheromones all_tours self = (Ok tt, self').
Proof.
  intros Hsq Hvalid. unfold update_pheromones, sbind, evaporate.
  destruct (for_st_ok (λ _ s, square n (pheromones s)) all_tours
              (λ '(tour, distance), deposit_tour tour distance))
    with (done := @nil (list Z * Q))
         (s := set_pheromones self
                 (map (map (λ p, p * (1 - evaporation_rate self))%Q)
                      (pheromones self)))
    as (self' & Hrun & _).
  - intros done [tour d] s Hs Hin.
    destruct (deposit_tour_entries n s tour d Hs) as (s' & Hrun & _ & Hs' & _).
    { intros c Hc. by apply (Hvalid (tour, d)). }
    by exists s'.
  - by apply square_map.
  - by exists self'.
Qed.

Lemma calculate_distance_same_matrix e1 e2 tour :
  distance_matrix e1 = distance_matrix e2 →
  calculate_distance e1 tour = calculate_distance e2 tour.
Proof. unfold calculate_distance. by intros ->. Qed.

Lemma well_formed_bframe self self' :
  bframe self self' → well_formed self → well_formed self'.
Proof. intros -> [H1 H2 H3]. by split. Qed.

Section Lifetime.

Context {rng : Type}.
Variable choice : list Z → list Q → St rng Z.
Variable fpow : Q → Q → Q.

Lemma after_calls_config ok e0 k self :
  after_calls choice fpow ok e0 k self →
  distance_matrix self = distance_matrix e0
  ∧ num_cities self = num_cities e0
  ∧ num_ants self = num_ants e0
  ∧ alpha self = alpha e0 ∧ beta self = beta e0
  ∧ evaporation_rate self = evaporation_rate e0
  ∧ Q_ self = Q_ e0.
Proof.
  induction 1 as [|k self s t g res self' g' _ IH _ Hrun
                  |k self s t g x self' g' _ IH _ Hrun]; [done| |];
    apply run_iteration_config in Hrun;
    destruct IH as (?&?&?&?&?&?&?), Hrun as (?&?&?&?&?&?&?);
    split_and!; congruence.
Qed.

(** X8. Calls of [run_iteration], returning or raising, never change the
    distance matrix, the number of cities or a parameter of the engine. *)
Theorem configuration_kept (ok : engine → Z → Z → rng → Prop)
    (e0 : engine) (k : nat) (self : engine) :
  after_calls choice fpow ok e0 k self →
  distance_matrix self = distance_matrix e0
  ∧ num_cities self = num_cities e0
  ∧ num_ants self = num_ants e0
  ∧ alpha self = alpha e0 ∧ beta self = beta e0
  ∧ evaporation_rate self = evaporation_rate e0
  ∧ Q_ self = Q_ e0.
Proof. apply after_calls_config. Qed.

(** The best tour and the best distance are both unset, or the distance
    is the length of the tour. *)
Definition best_consistent (self : engine) : Prop :=
  (best_tour self = None ∧ best_distance self = Inf)
  ∨ ∃ tour d, best_tour self = Some tour ∧ best_distance self = Real d
              ∧ calculate_distance self tour = Ok d.

Lemma run_iteration_best_consistent start_city end_city self g r self' g' :
  best_consistent self →
  run_iteration choice fpow start_city end_city (self, g) = (r, (self', g')) →
  best_consistent self'.
Proof.
  intros Hcons Hrun.
  pose proof (run_iteration_config _ _ _ _ _ _ _ _ _ Hrun) as (Hdm & _).
  apply run_iteration_best in Hrun as (_ & tours & Himp & _).
  destruct Himp as [[Hd Ht]|(tour & d & ga & gb & _ & Hlen & _ & Hd & Ht & _)].
  - destruct Hcons as [[H1 H2]|(tour & d & H1 & H2 & H3)].
    + left. split; congruence.
    + right. exists tour, d. split_and!; [congruence..|].
      by rewrite (calculate_distance_same_matrix self' self).
  - right. exists tour, d. split_and!; [done..|].
    by rewrite (calculate_distance_same_matrix self' self).
Qed.

(** X9. From a new engine, after any calls of [run_iteration], the best
    tour and the best distance are both unset or both set, and the best
    distance is what [calculate_distance] gives for the best tour. *)
Theorem best_distance_is_tour_length (dm : list (list Q)) (n_ants : Z)
    (a b rho q : Q) (e0 : engine) (k : nat) (self : engine) :
  __init__ dm n_ants a b rho q = Ok e0 →
  after_calls choice fpow any_call e0 k self →
  best_consistent self.
Proof.
  intros [= <-].
  induction 1 as [|k self s t g res self' g' _ IH _ Hrun
                  |k self s t g x self' g' _ IH _ Hrun].
  - by left.
  - by eapply run_iteration_best_consistent.
  - by eapply run_iteration_best_consistent.
Qed.

Hypothesis choice_elem :
  ∀ cities probs g c g', choice cities probs g = (Ok c, g') → c ∈ cities.

(** Both end points are indices of a city. *)
Definition end_points_in_range : engine → Z → Z → rng → Prop :=
  λ self start_city end_city _,
    0 ≤ start_city < num_cities self ∧ 0 ≤ end_city < num_cities self.

(** Both end points are indices of a city, and they differ. *)
Definition end_points_valid : engine → Z → Z → rng → Prop :=
  λ self start_city end_city _,
    0 ≤ start_city < num_cities self ∧ 0 ≤ end_city < num_cities self
    ∧ start_city ≠ end_city.

Lemma construct_solution_in_range self start_city end_city g tour g' :
  0 ≤ start_city < num_cities self → 0 ≤ end_city < num_cities self →
  construct_solution choice fpow self start_city end_city g = (Ok tour, g') →
  ∀ c, c ∈ tour → 0 ≤ c < num_cities self.
Proof.
  intros Hs He Hc.
  apply (construct_solution_walk choice fpow self start_city end_city choice_elem)
    in Hc as (body & visited & cur & -> & Hinv & _); [|done].
  intros c Hin. apply elem_of_app in Hin as [Hin|Hin].
  - by apply Hinv.
  - apply list_elem_of_singleton in Hin. by subst.
Qed.

(** With end points in range, the ants raise only what the random source
    raises, and record tours over cities in range. *)
Lemma ants_in_range n start_city end_city acc self g r self' g' :
  well_formed self →
  0 ≤ start_city < num_cities self → 0 ≤ end_city < num_cities self →
  ants choice fpow n start_city end_city acc (self, g) = (r, (self', g')) →
  match r with
  | Raise x => sampler_raises choice x
  | Ok all_tours =>
      ∃ new, all_tours = acc ++ new
             ∧ ∀ td c, td ∈ new → c ∈ td.1 → 0 ≤ c < num_cities self
  end.
Proof.
  intros Hwf Hs He. revert acc self g Hwf Hs He.
  induction n as [|n IH]; intros acc self g Hwf Hs He.
  - cbn [ants]. intros [= <- <- <-]. exists []. split; [by rewrite app_nil_r|].
    intros td c Htd. by apply elem_of_nil in Htd.
  - cbn [ants]. unfold sbind at 1, reading at 1.
    destruct (construct_solution choice fpow self start_city end_city g)
      as [[tour|e] g1] eqn:Hc.
    2:{ intros [= <- <- <-]. cbn.
        eapply (construct_solution_only_sampler choice fpow choice_elem);
          [exact Hwf|exact Hs|exact Hc]. }
    pose proof (construct_solution_in_range _ _ _ _ _ _ Hs He Hc) as Htour.
    unfold sbind at 1, reading at 1, lift.
    destruct (calculate_distance_valid self tour Hwf) as (d & -> & _).
    { intros c Hin. rewrite norm_index_range by (by apply Htour). by eexists. }
    unfold sbind at 1, mutating at 1.
    assert (∀ e1, bframe self e1 →
              ants choice fpow n start_city end_city (acc ++ [(tour, d)]) (e1, g1)
              = (r, (self', g')) →
              match r with
              | Raise x => sampler_raises choice x
              | Ok all_tours =>
                  ∃ new, all_tours = acc ++ new
                         ∧ ∀ td c, td ∈ new → c ∈ td.1 → 0 ≤ c < num_cities self
              end) as Hstep.
    { intros e1 Hbf Hrest.
      apply IH in Hrest; [|by eapply well_formed_bframe|by rewrite Hbf..].
      destruct r as [all_tours|x]; [|done].
      destruct Hrest as (new & -> & Hnew). exists ((tour, d) :: new).
      rewrite <- app_assoc. split; [done|].
      intros td c Htd Hin. apply elem_of_cons in Htd as [->|Htd].
      - by apply Htour.
      - rewrite Hbf in Hnew. by eapply Hnew. }
    destruct (lt_best d (best_distance self)); apply Hstep;
      [done|apply bframe_refl].
Qed.

(** X10. On an engine with square matrices, a call of [run_iteration]
    with both end points in range raises only what the random source
    raises; when it does, the pheromone matrix and the history are as they
    were. *)
Theorem run_iteration_raises (start_city end_city : Z) (self : engine)
    (g : rng) (x : exn) (self' : engine) (g' : rng) :
  well_formed self →
  0 ≤ start_city < num_cities self → 0 ≤ end_city < num_cities self →
  run_iteration choice fpow start_city end_city (self, g)
  = (Raise x, (self', g')) →
  sampler_raises choice x
  ∧ pheromones self' = pheromones self
  ∧ history self' = history self.
Proof.
  intros Hwf Hs He Hrun.
  apply run_iteration_phases in Hrun as (ra & e1 & Ha & Hrest).
  pose proof (ants_outcome _ _ _ _ _ _ _ _ _ _ _ Ha) as (Hbf & _).
  pose proof (ants_in_range _ _ _ _ _ _ _ _ _ Hwf Hs He Ha) as Hvalid.
  destruct ra as [all_tours|y].
  - exfalso. destruct Hrest as (ru & e2 & Hu & Hrest).
    destruct Hvalid as (new & Hall & Hnew). simpl in Hall. subst new.
    pose proof (well_formed_bframe _ _ Hbf Hwf) as [_ _ Hph].
    destruct (update_pheromones_returns _ e1 all_tours Hph) as [e3 He3].
    + intros td c Htd Hc. rewrite well_formed_size by (by eapply well_formed_bframe).
      rewrite norm_index_range; [by eexists|].
      rewrite Hbf. cbn [num_cities with_best]. by eapply Hnew.
    + rewrite He3 in Hu. injection Hu as <- <-. by destruct Hrest.
  - destruct Hrest as [[= ->] ->]. split; [done|]. by rewrite Hbf.
Qed.

End Lifetime.

Section BestTour.

Context {rng : Type}.
Variable choice : list Z → list Q → St rng Z.
Variable fpow : Q → Q → Q.
Hypothesis choice_elem :
  ∀ cities probs g c g', choice cities probs g = (Ok c, g') → c ∈ cities.

Lemma construct_solution_visits_all self start_city end_city g tour g' :
  0 ≤ start_city < num_cities self →
  0 ≤ end_city < num_cities self →
  start_city ≠ end_city →
  construct_solution choice fpow self start_city end_city g = (Ok tour, g') →
  tour ≡ₚ range (num_cities self) ∧ NoDup tour.
Proof.
  intros Hs He Hne Hc.
  apply construct_solution_reach in Hc as (body & visited & cur & Hr & Hg & ->).
  pose proof (loop_reach_inv choice fpow choice_elem self start_city end_city
                _ _ _ _ _ Hs Hne Hr) as Hinv.
  pose proof (tour_inv_length self start_city end_city _ _ He Hinv) as Hle.
  destruct Hinv as [Hnd Hvis Hrg Hend Hhd].
  assert (NoDup (body ++ [end_city])) as Hnd'.
  { apply NoDup_app. split_and!; [done| |apply NoDup_singleton].
    intros x Hx Hxe. apply list_elem_of_singleton in Hxe. by subst. }
  split; [|done].
  apply submseteq_length_Permutation.
  - apply NoDup_submseteq; [done|].
    intros c Hc. apply elem_of_seqZ.
    apply elem_of_app in Hc as [Hc|Hc]; [apply Hrg in Hc; lia|].
    apply list_elem_of_singleton in Hc. subst. lia.
  - unfold range. rewrite length_seqZ, length_app. unfold len in *. simpl. lia.
Qed.

Lemma after_calls_best_tour e0 k self tour :
  best_tour e0 = None →
  after_calls choice fpow end_points_valid e0 k self →
  best_tour self = Some tour →
  tour ≡ₚ range (num_cities e0) ∧ NoDup tour.
Proof.
  intros H0 Hcalls. revert tour.
  induction Hcalls as [|k self s t g res self' g' Hcalls IH Hok Hrun
                       |k self s t g x self' g' Hcalls IH Hok Hrun];
    intros tour Hbest.
  - congruence.
  - apply after_calls_config in Hcalls as (_ & Hn & _).
    apply run_iteration_best in Hrun as (_ & tours & Himp & _).
    destruct Himp as [[_ Ht]|(tour' & d & ga & gb & Hc & _ & _ & _ & Ht & _)].
    + apply IH. congruence.
    + destruct Hok as (Hs & He & Hne).
      apply construct_solution_visits_all in Hc; [|done..].
      rewrite Hn in Hc. congruence.
  - apply after_calls_config in Hcalls as (_ & Hn & _).
    apply run_iteration_best in Hrun as (_ & tours & Himp & _).
    destruct Himp as [[_ Ht]|(tour' & d & ga & gb & Hc & _ & _ & _ & Ht & _)].
    + apply IH. congruence.
    + destruct Hok as (Hs & He & Hne).
      apply construct_solution_visits_all in Hc; [|done..].
      rewrite Hn in Hc. congruence.
Qed.

(** X11. From a new engine, when every call of [run_iteration] was given
    two distinct end points in range, the best tour, once there is one,
    is a permutation of the city indices [0 .. N-1] without repetition. *)
Theorem best_tour_permutation (dm : list (list Q)) (n_ants : Z)
    (a b rho q : Q) (e0 : engine) (k : nat) (self : engine) (tour : list Z) :
  __init__ dm n_ants a b rho q = Ok e0 →
  after_calls choice fpow end_points_valid e0 k self →
  best_tour self = Some tour →
  tour ≡ₚ range (len dm) ∧ NoDup tour.
Proof.
  intros [= <-] Hcalls Hbest.
  exact (after_calls_best_tour
           (Engine dm (len dm) n_ants a b rho q (ones (len dm)) None Inf [])
           k self tour eq_refl Hcalls Hbest).
Qed.

End BestTour.

(** ** When the pheromone update raises *)

(** A loop that raises, raises in one of its iterations. *)
Lemma for_st_raise_cause {S B} (I : S → Prop) (C : B → Prop)
    (xs : list B) (body : B → St S unit) :
  (∀ x s r s', x ∈ xs → I s → body x s = (r, s') →
     I s' ∧ ∀ e, r = Raise e → e = IndexError ∧ C x) →
  ∀ s r s', I s → for_st xs body s = (r, s') →
    I s' ∧ ∀ e, r = Raise e → e = IndexError ∧ ∃ x, x ∈ xs ∧ C x.
Proof.
  induction xs as [|x xs IH]; intros Hbody s r s' Hs.
  - intros [= <- <-]. split; [done|]. by intros e.
  - rewrite for_st_cons.
    destruct (body x s) as [[[]|e] s1] eqn:Hb.
    + destruct (Hbody x s _ _ ltac:(left) Hs Hb) as [Hs1 _].
      intros Hrest. apply IH in Hrest as [Hs' Hcause];
        [|intros y t r1 t1 Hy; apply Hbody; by right|done].
      split; [done|]. intros e He. destruct (Hcause e He) as (-> & y & Hy & Hc).
      split; [done|]. exists y. split; [by right|done].
    + intros [= <- <-].
      destruct (Hbody x s _ _ ltac:(left) Hs Hb) as [Hs1 Hc].
      split; [done|]. intros e' [= <-]. destruct (Hc e eq_refl) as [-> Hx].
      split; [done|]. exists x. split; [left|done].
Qed.

(** A loop one of whose iterations raises from every state, raises. *)
Lemma for_st_must_raise {S B} (I : S → Prop) (xs : list B)
    (body : B → St S unit) (x0 : B) :
  x0 ∈ xs →
  (∀ s, I s → ∃ s', body x0 s = (Raise IndexError, s')) →
  (∀ x s r s', I s → body x s = (r, s') →
     I s' ∧ ∀ e, r = Raise e → e = IndexError) →
  ∀ s, I s → ∃ s', for_st xs body s = (Raise IndexError, s').
Proof.
  intros Hin Hx0 Hbody. induction xs as [|x xs IH]; intros s Hs.
  { by apply elem_of_nil in Hin. }
  rewrite for_st_cons.
  destruct (body x s) as [[[]|e] s1] eqn:Hb.
  - destruct (Hbody x s _ _ Hs Hb) as [Hs1 _].
    apply elem_of_cons in Hin as [->|Hin].
    + destruct (Hx0 s Hs) as [s' Hs']. congruence.
    + by apply IH.
  - destruct (Hbody x s _ _ Hs Hb) as [_ He]. rewrite (He e eq_refl).
    by eexists.
Qed.

Lemma add_edge_outcome n a b dep s r s' :
  square n (pheromones s) →
  (_ <~ add_pheromone a b dep;; add_pheromone b a dep) s = (r, s') →
  square n (pheromones s')
  ∧ ∀ e, r = Raise e →
      e = IndexError
      ∧ (norm_index (Z.of_nat n) a = None ∨ norm_index (Z.of_nat n) b = None).
Proof.
  intros Hsq.
  destruct (norm_index (Z.of_nat n) a) as [ra|] eqn:Ha;
    [destruct (norm_index (Z.of_nat n) b) as [cb|] eqn:Hb|].
  - destruct (add_edge_entries n s a b dep ra cb Hsq Ha Hb) as (P2 & -> & Hsq2 & _).
    intros [= <- <-]. split; [done|]. by intros e.
  - unfold sbind. rewrite (add_pheromone_square n) by done. rewrite Ha, Hb.
    intros [= <- <-]. split; [done|]. intros e [= <-]. auto.
  - unfold sbind. rewrite (add_pheromone_square n) by done. rewrite Ha.
    intros [= <- <-]. split; [done|]. intros e [= <-]. auto.
Qed.

Lemma add_edge_invalid n a b dep s :
  square n (pheromones s) →
  norm_index (Z.of_nat n) a = None ∨ norm_index (Z.of_nat n) b = None →
  (_ <~ add_pheromone a b dep;; add_pheromone b a dep) s = (Raise IndexError, s).
Proof.
  intros Hsq Hbad. unfold sbind. rewrite (add_pheromone_square n) by done.
  destruct Hbad as [-> | ->]; [done|].
  by destruct (norm_index (Z.of_nat n) a).
Qed.

Lemma consecutive_covers (tour : list Z) (c : Z) :
  (2 ≤ length tour)%nat → c ∈ tour →
  ∃ a b, (a, b) ∈ consecutive tour ∧ (c = a ∨ c = b).
Proof.
  induction tour as [|x tour IH]; [simpl; lia|].
  destruct tour as [|y rest]; [simpl; lia|].
  intros _ Hc. rewrite consecutive_cons.
  apply elem_of_cons in Hc as [->|Hc].
  - exists x, y. split; [left|by left].
  - destruct rest as [|z rest'].
    + apply list_elem_of_singleton in Hc. subst.
      exists x, y. split; [left|by right].
    + destruct IH as (a & b & Hab & Hcab); [simpl; lia|done|].
      exists a, b. split; [by right|done].
Qed.

Lemma consecutive_length (tour : list Z) (ab : Z * Z) :
  ab ∈ consecutive tour → (2 ≤ length tour)%nat.
Proof.
  destruct tour as [|x [|y rest]]; simpl; try lia;
    by intros ?%elem_of_nil.
Qed.

Lemma deposit_tour_outcome n tour distance s r s' :
  square n (pheromones s) →
  deposit_tour tour distance s = (r, s') →
  square n (pheromones s')
  ∧ ∀ e, r = Raise e →
      e = IndexError
      ∧ (2 ≤ length tour)%nat
      ∧ ∃ c, c ∈ tour ∧ norm_index (Z.of_nat n) c = None.
Proof.
  intros Hsq. rewrite deposit_tour_consecutive. intros Hrun.
  apply (for_st_raise_cause (λ t, square n (pheromones t))
           (λ ab, norm_index (Z.of_nat n) ab.1 = None
                  ∨ norm_index (Z.of_nat n) ab.2 = None)) in Hrun
    as [Hsq' Hcause]; [| |done].
  - split; [done|]. intros e He.
    destruct (Hcause e He) as (-> & [a b] & Hab & Hbad).
    split; [done|]. split; [by eapply consecutive_length|].
    apply elem_of_consecutive in Hab as [Ha Hb].
    destruct Hbad as [Hbad|Hbad]; eauto.
  - intros [a b] t r1 t1 _ Ht Hedge. by eapply add_edge_outcome.
Qed.

Lemma deposit_tour_invalid n tour distance s c :
  square n (pheromones s) →
  (2 ≤ length tour)%nat → c ∈ tour → norm_index (Z.of_nat n) c = None →
  ∃ s', deposit_tour tour distance s = (Raise IndexError, s').
Proof.
  intros Hsq Hlen Hc Hbad. rewrite deposit_tour_consecutive.
  destruct (consecutive_covers tour c Hlen Hc) as (a & b & Hab & Hcab).
  apply (for_st_must_raise (λ t, square n (pheromones t)) _ _ (a, b));
    [done| | |done].
  - intros t Ht. exists t. apply (add_edge_invalid n); [done|].
    destruct Hcab as [<- | <-]; auto.
  - intros [x y] t r1 t1 Ht Hedge.
    destruct (add_edge_outcome n x y _ t r1 t1 Ht Hedge) as [Ht1 He].
    split; [done|]. intros e Hr. by destruct (He e Hr).
Qed.

(** X12. On an N x N pheromone matrix and for tours none of which has
    the length 0, [update_pheromones] raises exactly when a tour of two
    cities or more holds an index that is not valid for the matrix, and
    what it raises is [IndexError]. *)
Theorem update_pheromones_raises_iff (n : nat) (self : engine)
    (all_tours : list (list Z * Q)) :
  square n (pheromones self) →
  Forall (λ td : list Z * Q, ¬ (td.2 == 0)%Q) all_tours →
  ((∃ x self', update_pheromones all_tours self = (Raise x, self'))
   ↔ ∃ tour d c, (tour, d) ∈ all_tours ∧ (2 ≤ length tour)%nat
                 ∧ c ∈ tour ∧ norm_index (Z.of_nat n) c = None)
  ∧ ∀ x self', update_pheromones all_tours self = (Raise x, self') →
      x = IndexError.
Proof.
  intros Hsq _.
  assert (square n (pheromones
            (set_pheromones self
               (map (map (λ p, p * (1 - evaporation_rate self))%Q)
                    (pheromones self))))) as Hsq0 by (by apply square_map).
  assert (∀ x self', update_pheromones all_tours self = (Raise x, self') →
            x = IndexError
            ∧ ∃ tour d c, (tour, d) ∈ all_tours ∧ (2 ≤ length tour)%nat
                          ∧ c ∈ tour ∧ norm_index (Z.of_nat n) c = None)
    as Hcause.
  { intros x self'. unfold update_pheromones, sbind at 1, evaporate. intros Hrun.
    apply (for_st_raise_cause (λ t, square n (pheromones t))
             (λ td, (2 ≤ length td.1)%nat
                    ∧ ∃ c, c ∈ td.1 ∧ norm_index (Z.of_nat n) c = None)) in Hrun
      as [_ Hc]; [| |done].
    - destruct (Hc x eq_refl) as (-> & [tour d] & Hin & Hlen & c & Hct & Hbad).
      split; [done|]. by exists tour, d, c.
    - intros [tour d] t r1 t1 _ Ht Hd.
      destruct (deposit_tour_outcome n tour d t r1 t1 Ht Hd) as [Ht1 He].
      split; [done|]. intros e Hr. destruct (He e Hr) as (-> & Hlen & Hc).
      done. }
  split; [split|].
  - intros (x & self' & Hrun). by apply Hcause in Hrun as [_ H].
  - intros (tour & d & c & Hin & Hlen & Hc & Hbad).
    unfold update_pheromones, sbind at 1, evaporate.
    destruct (for_st_must_raise (λ t, square n (pheromones t)) all_tours
                (λ '(tour, distance), deposit_tour tour distance) (tour, d) Hin)
      with (s := set_pheromones self
                   (map (map (λ p, p * (1 - evaporation_rate self))%Q)
                        (pheromones self))) as [s' Hs']; [| |done|].
    + intros t Ht. by apply (deposit_tour_invalid n _ _ _ c).
    + intros [tour' d'] t r1 t1 Ht Hd.
      destruct (deposit_tour_outcome n tour' d' t r1 t1 Ht Hd) as [Ht1 He].
      split; [done|]. intros e Hr. by destruct (He e Hr).
    + by exists IndexError, s'.
  - intros x self' Hrun. by apply Hcause in Hrun as [H _].
Qed.

(** X13. A failed update is not undone: when the first tour has a length
    other than 0 and its first two cities are not both valid indices,
    [update_pheromones] raises [IndexError] and leaves every pheromone
    multiplied by [1 - rho]. *)
Theorem update_pheromones_not_undone (n : nat) (self : engine) (a b : Z)
    (more : list Z) (d : Q) (rest : list (list Z * Q)) :
  square n (pheromones self) →
  ¬ (d == 0)%Q →
  norm_index (Z.of_nat n) a = None ∨ norm_index (Z.of_nat n) b = None →
  update_pheromones ((a :: b :: more, d) :: rest) self
  = (Raise IndexError,
     set_pheromones self
       (map (map (λ p, p * (1 - evaporation_rate self))%Q) (pheromones self))).
Proof.
  intros Hsq _ Hbad. unfold update_pheromones, sbind at 1, evaporate.
  rewrite for_st_cons, deposit_tour_consecutive, consecutive_cons, for_st_cons.
  cbn [fst snd]. rewrite (add_edge_invalid n); [done| |done].
  by apply square_map.
Qed.

(** ** The city that a move selects *)

(** X16. [select_next_city] returns a city of [range(N)] that is neither
    visited nor the end city; only if there is none it returns the end
    city, and then without a draw. *)
Theorem select_next_city_unvisited {rng : Type}
    (choice : list Z → list Q → St rng Z) (fpow : Q → Q → Q)
    (self : engine) (cur : Z) (visited : gset Z) (end_city : Z)
    (g : rng) (c : Z) (g' : rng) :
  (∀ cities probs g c g', choice cities probs g = (Ok c, g') → c ∈ cities) →
  select_next_city choice fpow self cur visited end_city g = (Ok c, g') →
  ((c ∉ visited) ∧ c ≠ end_city ∧ 0 ≤ c < num_cities self)
  ∨ (c = end_city ∧ g' = g
     ∧ ∀ city, 0 ≤ city < num_cities self → city ≠ end_city → city ∈ visited).
Proof.
  intros Hchoice Hsel.
  apply (select_next_city_elem choice fpow Hchoice) in Hsel
    as [(Hnil & -> & ->)|Hc].
  - right. split_and!; [done..|]. intros city Hcity Hne.
    destruct (decide (city ∈ visited)) as [|Hv]; [done|]. exfalso.
    apply (filter_nil_not_elem_of _ _ city Hnil); [split; assumption|].
    unfold range. apply elem_of_seqZ. lia.
  - left. apply list_elem_of_filter in Hc as [[Hv He] Hr].
    apply elem_of_seqZ in Hr. split_and!; try done; lia.
Qed.

(** * The distance matrix builder (src/utils/distance.py)

    A city is a Python dict from names to numbers; reading a key that is
    absent raises [KeyError].  [np.sqrt] is a parameter ([sqrt]). *)

From stdpp Require Import strings.

Open Scope Z_scope.
Open Scope py_scope.

Inductive error : Type :=
| KeyError (key : string)
| Builtin (x : exn).

Inductive outcome (A : Type) : Type :=
| Return (a : A)
| Throw (e : error).
Arguments Return {A} a.
Arguments Throw {A} e.

Definition obind {A B} (o : outcome A) (k : A → outcome B) : outcome B :=
  match o with
  | Return a => k a
  | Throw e => Throw e
  end.

Notation "x <-- c ;; k" := (obind c (λ x, k))
  (at level 100, c at next level, right associativity) : py_scope.

Definition of_result {A} (r : result A) : outcome A :=
  match r with
  | Ok a => Return a
  | Raise x => Throw (Builtin x)
  end.

(** [d[key]] *)
Definition dict_get (d : gmap string Q) (key : string) : outcome Q :=
  match d !! key with
  | Some v => Return v
  | None => Throw (KeyError key)
  end.

(** A [for x in xs] loop over an accumulator. *)
Fixpoint ofor {A B} (xs : list B) (acc : A) (body : B → A → outcome A)
  : outcome A :=
  match xs with
  | [] => Return acc
  | x :: xs' => acc' <-- body x acc;; ofor xs' acc' body
  end.

(** [np.zeros((n, n))] *)
Definition zeros (n : Z) : list (list Q) :=
  replicate (Z.to_nat n) (replicate (Z.to_nat n) 0%Q).

Section Distance.

Variable sqrt : Q → Q.

(** [calculate_euclidean_distance] (distance.py 7-20) *)
Definition calculate_euclidean_distance (city1 city2 : gmap string Q)
  : outcome Q :=
  lat1 <-- dict_get city1 "lat";;
  lat2 <-- dict_get city2 "lat";;
  let lat_diff := (lat1 - lat2)%Q in
  lon1 <-- dict_get city1 "lon";;
  lon2 <-- dict_get city2 "lon";;
  let lon_diff := (lon1 - lon2)%Q in
  Return (sqrt (lat_diff ^ 2 + lon_diff ^ 2)%Q).

(** [build_distance_matrix] (distance.py 23-42) *)
Definition build_distance_matrix (cities : list (gmap string Q))
  : outcome (list (list Q)) :=
  let n := len cities in
  let matrix := zeros n in
  ofor (range n) matrix (λ i matrix,
    ofor (range n) matrix (λ j matrix,
      if bool_decide (i ≠ j) then
        city_i <-- of_result (getitem cities i);;
        city_j <-- of_result (getitem cities j);;
        d <-- calculate_euclidean_distance city_i city_j;;
        of_result (setitem2 matrix i j d)
      else Return matrix)).

End Distance.

(** The loop runs through when each iteration returns, whatever the
    iterations before it have established. *)
Lemma ofor_ok {A B} (I : list B → A → Prop) (xs : list B)
    (body : B → A → outcome A) :
  (∀ done x rest a, xs = done ++ x :: rest → I done a →
     ∃ a', body x a = Return a' ∧ I (done ++ [x]) a') →
  ∀ a, I [] a → ∃ a', ofor xs a body = Return a' ∧ I xs a'.
Proof.
  intros Hbody.
  assert (∀ rest done a, xs = done ++ rest → I done a →
            ∃ a', ofor rest a body = Return a' ∧ I xs a') as Hgen.
  { induction rest as [|x rest IH]; intros done a Hxs Ha.
    - exists a. rewrite app_nil_r in Hxs. by subst.
    - destruct (Hbody done x rest a Hxs Ha) as (a1 & Hb & H1).
      destruct (IH (done ++ [x]) a1) as (a' & Hf & H'); [by rewrite <- app_assoc|done|].
      exists a'. cbn [ofor]. rewrite Hb. done. }
  intros a Ha. by apply (Hgen xs []).
Qed.

(** What a loop that ends, returning or throwing, tells of its
    iterations. *)
Lemma ofor_inv {A B} (I : A → Prop) (P : B → Prop) (E : error → Prop)
    (xs : list B) (body : B → A → outcome A) :
  (∀ x a, x ∈ xs → I a →
     match body x a with
     | Return a' => I a' ∧ P x
     | Throw e => E e
     end) →
  ∀ a, I a →
    match ofor xs a body with
    | Return a' => I a' ∧ Forall P xs
    | Throw e => E e
    end.
Proof.
  induction xs as [|x xs IH]; intros Hbody a Ha; [done|].
  cbn [ofor]. pose proof (Hbody x a ltac:(left) Ha) as Hx.
  destruct (body x a) as [a1|e]; cbn [obind]; [|done].
  destruct Hx as [Ha1 Hpx].
  specialize (IH (λ y b Hy, Hbody y b (list_elem_of_further _ _ _ Hy)) a1 Ha1).
  destruct (ofor xs a1 body); [|done]. destruct IH. by split; [|constructor].
Qed.

Section DistanceProperties.

Variable sqrt : Q → Q.
Variable cities : list (gmap string Q).

Definition has_coordinates (city : gmap string Q) : Prop :=
  is_Some (city !! "lat") ∧ is_Some (city !! "lon").

(** The coordinates of a city are moderate: within a thousand million
    of 0.  There the differences, the squares and their sum stay within
    the numbers of the source, whole or floating, and the distance is
    computed without an overflow. *)
Definition moderate (city : gmap string Q) : Prop :=
  ∀ key v, key = "lat" ∨ key = "lon" → city !! key = Some v →
    (- 1000000000 <= v)%Q ∧ (v <= 1000000000)%Q.

(** The coordinate [key] of the city at position [r] (0 if absent). *)
Definition coordinate (r : nat) (key : string) : Q :=
  default 0%Q (cities !! r ≫= λ city, city !! key).

(** The planar distance of the cities at positions [r] and [c], as the
    source computes it. *)
Definition euclid (r c : nat) : Q :=
  sqrt ((coordinate r "lat" - coordinate c "lat") ^ 2
        + (coordinate r "lon" - coordinate c "lon") ^ 2)%Q.

Lemma distance_returns r c city_r city_c :
  cities !! r = Some city_r → cities !! c = Some city_c →
  has_coordinates city_r → has_coordinates city_c →
  calculate_euclidean_distance sqrt city_r city_c = Return (euclid r c).
Proof.
  intros Hr Hc [[lat1 H1] [lon1 H2]] [[lat2 H3] [lon2 H4]].
  unfold calculate_euclidean_distance, dict_get, euclid, coordinate.
  rewrite Hr, Hc. simpl. by rewrite H1, H2, H3, H4.
Qed.

(** What is thrown for a coordinate that is absent. *)
Definition missing_coordinate (e : error) : Prop :=
  ∃ key, e = KeyError key ∧ (key = "lat" ∨ key = "lon").

Lemma distance_outcome city1 city2 :
  match calculate_euclidean_distance sqrt city1 city2 with
  | Return _ => has_coordinates city1 ∧ has_coordinates city2
  | Throw e => missing_coordinate e
  end.
Proof.
  unfold calculate_euclidean_distance, dict_get, has_coordinates, missing_coordinate.
  destruct (city1 !! "lat") eqn:H1; cbn [obind]; [|by eauto].
  destruct (city2 !! "lat") eqn:H2; cbn [obind]; [|by eauto].
  destruct (city1 !! "lon") eqn:H3; cbn [obind]; [|by eauto].
  destruct (city2 !! "lon") eqn:H4; cbn [obind]; [|by eauto].
  by repeat split.
Qed.

Lemma getitem_cities (i : Z) :
  0 ≤ i < len cities →
  ∃ city, cities !! Z.to_nat i = Some city ∧ getitem cities i = Ok city.
Proof.
  intros Hi. destruct (cities !! Z.to_nat i) as [city|] eqn:Hc.
  - exists city. split; [done|]. by apply getitem_range; [lia|].
  - apply lookup_ge_None in Hc. unfold len in Hi. lia.
Qed.

Lemma entry_zeros n r c :
  (r < Z.to_nat n)%nat → (c < Z.to_nat n)%nat → entry (zeros n) r c = Some 0%Q.
Proof.
  intros Hr Hc. unfold entry, zeros.
  rewrite lookup_replicate_2 by done. simpl. by rewrite lookup_replicate_2.
Qed.

Lemma square_zeros n : square (Z.to_nat n) (zeros n).
Proof.
  split; [apply length_replicate|].
  intros row Hrow. apply elem_of_replicate in Hrow as [-> _].
  apply length_replicate.
Qed.

(** The cells for which [F] holds hold the distance of their cities, the
    others 0. *)
Definition filled (F : nat → nat → Prop) (m : list (list Q)) : Prop :=
  square (length cities) m
  ∧ ∀ r c, (r < length cities)%nat → (c < length cities)%nat →
      ∃ v, entry m r c = Some v
           ∧ (F r c → v = euclid r c) ∧ (¬ F r c → v = 0%Q).

Lemma filled_ext (F G : nat → nat → Prop) m :
  (∀ r c, (r < length cities)%nat → (c < length cities)%nat → F r c ↔ G r c) →
  filled F m → filled G m.
Proof.
  intros Heq [Hsq Hm]. split; [done|]. intros r c Hr Hc.
  destruct (Hm r c Hr Hc) as (v & Hv & H1 & H2). exists v.
  specialize (Heq r c Hr Hc). split_and!; [done|tauto|tauto].
Qed.

(** One pass of the inner loop: row [i] of the matrix. *)
Lemma build_row (done0 : list Z) (i : Z) (m : list (list Q)) :
  Forall has_coordinates cities →
  0 ≤ i < len cities →
  filled (λ r c, Z.of_nat r ∈ done0 ∧ r ≠ c) m →
  ∃ m',
    ofor (range (len cities)) m (λ j matrix,
      if bool_decide (i ≠ j) then
        city_i <-- of_result (getitem cities i);;
        city_j <-- of_result (getitem cities j);;
        d <-- calculate_euclidean_distance sqrt city_i city_j;;
        of_result (setitem2 matrix i j d)
      else Return matrix) = Return m'
    ∧ filled (λ r c, Z.of_nat r ∈ done0 ++ [i] ∧ r ≠ c) m'.
Proof.
  intros Hall Hi Hm.
  destruct (ofor_ok
    (λ done, filled (λ r c, (Z.of_nat r ∈ done0 ∧ r ≠ c)
                            ∨ (Z.of_nat r = i ∧ Z.of_nat c ∈ done ∧ r ≠ c)))
    (range (len cities))
    (λ j matrix,
      if bool_decide (i ≠ j) then
        city_i <-- of_result (getitem cities i);;
        city_j <-- of_result (getitem cities j);;
        d <-- calculate_euclidean_distance sqrt city_i city_j;;
        of_result (setitem2 matrix i j d)
      else Return matrix)) with (a := m) as (m' & Hrun & Hm').
  - intros done j rest a Hsplit [Hsq Ha].
    assert (0 ≤ j < len cities) as Hj.
    { assert (j ∈ range (len cities)) as Hin
        by (rewrite Hsplit; apply elem_of_app; right; left).
      apply elem_of_seqZ in Hin. lia. }
    destruct (decide (i = j)) as [<-|Hij].
    + rewrite bool_decide_eq_false_2 by (intros H; by apply H).
      exists a. split; [done|]. split; [done|]. intros r c Hr Hc.
      destruct (Ha r c Hr Hc) as (v & Hv & H1 & H2). exists v.
      split_and!; [done| |].
      * intros [?|(Hri & Hcd & Hne)]; [apply H1; by left|].
        apply elem_of_app in Hcd as [Hcd|Hcd]; [apply H1; by right|].
        apply list_elem_of_singleton in Hcd. lia.
      * intros Hn. apply H2. intros [?|(Hri & Hcd & Hne)]; apply Hn;
          [by left|right]. split_and!; [done| |done].
        apply elem_of_app. by left.
    + rewrite bool_decide_eq_true_2 by done.
      destruct (getitem_cities i Hi) as (ci & Hci & ->).
      destruct (getitem_cities j Hj) as (cj & Hcj & ->).
      cbn [of_result obind].
      rewrite (distance_returns (Z.to_nat i) (Z.to_nat j)); [|done|done| |].
      2,3: rewrite Forall_forall in Hall; apply Hall;
           by eapply list_elem_of_lookup_2.
      cbn [obind].
      rewrite (setitem2_square (length cities) _ _ _ _ (Z.to_nat i) (Z.to_nat j));
        [|done|by apply norm_index_range..].
      eexists. split; [done|]. split; [by apply square_mset|].
      intros r c Hr Hc.
      assert (is_Some (entry a (Z.to_nat i) (Z.to_nat j))) as Hs
        by (apply (square_entry (length cities)); [done|unfold len in *; lia..]).
      rewrite entry_mset by done.
      destruct (decide ((r, c) = (Z.to_nat i, Z.to_nat j))) as [[= -> ->]|Hne].
      * eexists. split; [done|]. split; [done|].
        intros Hn. exfalso. apply Hn. right. split_and!; [lia| |lia].
        apply elem_of_app. right. rewrite Z2Nat.id by lia. left.
      * destruct (Ha r c Hr Hc) as (v & Hv & H1 & H2). exists v.
        split_and!; [done| |].
        -- intros [?|(Hri & Hcd & Hrc)]; [apply H1; by left|].
           apply elem_of_app in Hcd as [Hcd|Hcd]; [apply H1; by right|].
           apply list_elem_of_singleton in Hcd. exfalso. apply Hne.
           f_equal; lia.
        -- intros Hn. apply H2. intros [?|(Hri & Hcd & Hrc)]; apply Hn;
             [by left|right]. split_and!; [done| |done].
           apply elem_of_app. by left.
  - eapply filled_ext; [|exact Hm]. intros r c _ _. split; [by left|].
    intros [?|(_ & Hc & _)]; [done|]. by apply elem_of_nil in Hc.
  - exists m'. split; [done|]. eapply filled_ext; [|exact Hm'].
    intros r c Hr Hc. rewrite elem_of_app, list_elem_of_singleton.
    split.
    + intros [[? ?]|(? & ? & ?)]; [by split; [left|]|by split; [right|]].
    + intros [[?|?] ?]; [by left|right]. split_and!; [done| |done].
      unfold range. apply elem_of_seqZ. unfold len. lia.
Qed.

Lemma build_distance_matrix_filled :
  Forall has_coordinates cities →
  ∃ m, build_distance_matrix sqrt cities = Return m
       ∧ filled (λ r c, r ≠ c) m.
Proof.
  intros Hall. unfold build_distance_matrix.
  destruct (ofor_ok
    (λ done, filled (λ r c, Z.of_nat r ∈ done ∧ r ≠ c))
    (range (len cities))
    (λ i matrix,
      ofor (range (len cities)) matrix (λ j matrix,
        if bool_decide (i ≠ j) then
          city_i <-- of_result (getitem cities i);;
          city_j <-- of_result (getitem cities j);;
          d <-- calculate_euclidean_distance sqrt city_i city_j;;
          of_result (setitem2 matrix i j d)
        else Return matrix))) with (a := zeros (len cities))
    as (m & Hrun & Hm).
  - intros done i rest a Hsplit Ha.
    assert (0 ≤ i < len cities) as Hi.
    { assert (i ∈ range (len cities)) as Hin
        by (rewrite Hsplit; apply elem_of_app; right; left).
      apply elem_of_seqZ in Hin. lia. }
    by apply build_row.
  - split.
    + rewrite <- (Nat2Z.id (length cities)) at 1. apply square_zeros.
    + intros r c Hr Hc. exists 0%Q. split_and!.
      * apply entry_zeros; unfold len; lia.
      * intros [Hin _]. by apply elem_of_nil in Hin.
      * done.
  - exists m. split; [done|]. eapply filled_ext; [|exact Hm].
    intros r c Hr Hc. split; [by intros [_ ?]|]. intros Hne. split; [|done].
    unfold range. apply elem_of_seqZ. unfold len. lia.
Qed.

(** X17. When every city has a latitude and a longitude, both moderate,
    [build_distance_matrix] returns an N x N matrix for the N cities, with
    0 on the diagonal and, in every other cell, the planar distance of
    the two cities. *)
Theorem build_distance_matrix_entries :
  Forall has_coordinates cities →
  Forall moderate cities →
  ∃ m, build_distance_matrix sqrt cities = Return m
       ∧ square (length cities) m
       ∧ ∀ r c, (r < length cities)%nat → (c < length cities)%nat →
           entry m r c = Some (if decide (r = c) then 0%Q else euclid r c).
Proof.
  intros Hall _.
  destruct (build_distance_matrix_filled Hall) as (m & Hrun & Hsq & Hm).
  exists m. split_and!; [done..|]. intros r c Hr Hc.
  destruct (Hm r c Hr Hc) as (v & -> & H1 & H2).
  case_decide; f_equal; [apply H2; by intros ?|by apply H1].
Qed.

End DistanceProperties.

Section DistanceMore.

Variable sqrt : Q → Q.

(** X18. When [sqrt] maps equal numbers to equal numbers and returns no
    negative number, the matrix built for cities that all have
    coordinates is symmetric and has no negative entry. *)
Theorem build_distance_matrix_symmetric (cities : list (gmap string Q))
    (m : list (list Q)) (r c : nat) :
  (∀ x y, (x == y)%Q → (sqrt x == sqrt y)%Q) →
  (∀ x, (0 <= sqrt x)%Q) →
  Forall has_coordinates cities →
  build_distance_matrix sqrt cities = Return m →
  (r < length cities)%nat → (c < length cities)%nat →
  ∃ v w, entry m r c = Some v ∧ entry m c r = Some w
         ∧ (v == w)%Q ∧ (0 <= v)%Q.
Proof.
  intros Hproper Hnn Hall Hrun Hr Hc.
  destruct (build_distance_matrix_filled sqrt cities Hall) as (m' & Hrun' & _ & Hm).
  rewrite Hrun in Hrun'. injection Hrun' as <-.
  destruct (Hm r c Hr Hc) as (v & Hv & Hv1 & Hv2).
  destruct (Hm c r Hc Hr) as (w & Hw & Hw1 & Hw2).
  exists v, w. split_and!; [done..| |].
  - destruct (decide (r = c)) as [->|Hne]; [congruence|].
    rewrite Hv1, Hw1 by done. unfold euclid. apply Hproper. ring.
  - destruct (decide (r = c)) as [->|Hne].
    + rewrite Hv2 by (by intros ?). apply Qle_refl.
    + rewrite Hv1 by done. apply Hnn.
Qed.

(** What the builder tells of the cities when it ends. *)
Lemma build_distance_matrix_outcome (cities : list (gmap string Q)) :
  (2 ≤ length cities)%nat →
  match build_distance_matrix sqrt cities with
  | Return _ => Forall has_coordinates cities
  | Throw e => missing_coordinate e
  end.
Proof.
  intros Hlen. unfold build_distance_matrix.
  pose proof (ofor_inv
    (λ m, square (length cities) m)
    (λ i, ∀ city, cities !! Z.to_nat i = Some city → has_coordinates city)
    missing_coordinate (range (len cities))
    (λ i matrix,
      ofor (range (len cities)) matrix (λ j matrix,
        if bool_decide (i ≠ j) then
          city_i <-- of_result (getitem cities i);;
          city_j <-- of_result (getitem cities j);;
          d <-- calculate_euclidean_distance sqrt city_i city_j;;
          of_result (setitem2 matrix i j d)
        else Return matrix))) as Hout.
  match type of Hout with ?A → _ => assert A as Hbody end.
  { intros i a Hi Ha. apply elem_of_seqZ in Hi.
    pose proof (ofor_inv
      (λ m, square (length cities) m)
      (λ j, i ≠ j → ∀ city, cities !! Z.to_nat i = Some city → has_coordinates city)
      missing_coordinate (range (len cities))
      (λ j matrix,
        if bool_decide (i ≠ j) then
          city_i <-- of_result (getitem cities i);;
          city_j <-- of_result (getitem cities j);;
          d <-- calculate_euclidean_distance sqrt city_i city_j;;
          of_result (setitem2 matrix i j d)
        else Return matrix)) as Hin.
    match type of Hin with ?A → _ => assert A as Hbody end.
    { intros j b Hj Hb. apply elem_of_seqZ in Hj.
      destruct (decide (i = j)) as [<-|Hij].
      - rewrite bool_decide_eq_false_2 by (intros H; by apply H). by split.
      - rewrite bool_decide_eq_true_2 by done.
        destruct (getitem_cities cities i) as (ci & Hci & ->); [lia|].
        destruct (getitem_cities cities j) as (cj & Hcj & ->); [lia|].
        cbn [of_result obind].
        pose proof (distance_outcome sqrt ci cj) as Hd.
        destruct (calculate_euclidean_distance sqrt ci cj) as [d|e];
          cbn [obind]; [|done].
        rewrite (setitem2_square (length cities) _ _ _ _ (Z.to_nat i) (Z.to_nat j));
          [|done|apply norm_index_range; unfold len in *; lia..].
        cbn [of_result]. split; [by apply square_mset|].
        intros _ city Hcity. destruct Hd as [Hd _]. congruence. }
    specialize (Hin Hbody a Ha).
    destruct (ofor (range (len cities)) a _) as [a'|e]; [|done].
    destruct Hin as [Ha' Hall]. split; [done|].
    rewrite Forall_forall in Hall.
    destruct (decide (i = 0)) as [->|Hne].
    - apply (Hall 1); [|done]. unfold range. apply elem_of_seqZ.
      unfold len. lia.
    - apply (Hall 0); [|done]. unfold range. apply elem_of_seqZ.
      unfold len. lia. }
  specialize (Hout Hbody (zeros (len cities))).
  match type of Hout with ?A → _ => assert A as Hsq end.
  { rewrite <- (Nat2Z.id (length cities)) at 1. apply square_zeros. }
  specialize (Hout Hsq).
  destruct (ofor (range (len cities)) (zeros (len cities)) _) as [m|e]; [|done].
  destruct Hout as [_ Hall]. rewrite Forall_forall in Hall.
  apply Forall_lookup. intros k city Hk.
  apply (Hall (Z.of_nat k)).
  - unfold range. apply elem_of_seqZ. apply lookup_lt_Some in Hk.
    unfold len. lia.
  - by rewrite Nat2Z.id.
Qed.

(** X19. With two cities or more, whose coordinates are moderate where
    they are present, [build_distance_matrix] returns exactly when every
    city has a latitude and a longitude; otherwise it raises [KeyError]
    for ['lat'] or ['lon']. *)
Theorem build_distance_matrix_key_error (cities : list (gmap string Q)) :
  (2 ≤ length cities)%nat →
  Forall moderate cities →
  ((∃ m, build_distance_matrix sqrt cities = Return m)
   ↔ Forall has_coordinates cities)
  ∧ ∀ e, build_distance_matrix sqrt cities = Throw e →
      ∃ key, e = KeyError key ∧ (key = "lat" ∨ key = "lon").
Proof.
  intros Hlen _.
  pose proof (build_distance_matrix_outcome cities Hlen) as Hout.
  split; [split|].
  - intros [m Hm]. by rewrite Hm in Hout.
  - intros Hall.
    destruct (build_distance_matrix_filled sqrt cities Hall) as (m & Hm & _).
    by exists m.
  - intros e He. by rewrite He in Hout.
Qed.

(** X20. With fewer than two cities no coordinate is read: the builder
    returns the all-zero matrix whatever the city holds. *)
Theorem build_distance_matrix_small (cities : list (gmap string Q)) :
  (length cities ≤ 1)%nat →
  build_distance_matrix sqrt cities = Return (zeros (len cities)).
Proof.
  destruct cities as [|city [|city' rest]]; [done|done|simpl; lia].
Qed.

(** X21. An engine constructed on a matrix built for cities that all have
    coordinates has square matrices, and [calculate_distance] returns a
    number that is not negative for every tour over city indices. *)
Theorem built_matrix_engine (cities : list (gmap string Q))
    (m : list (list Q)) (n_ants : Z) (a b rho q : Q) (self : engine)
    (tour : list Z) :
  (∀ x, (0 <= sqrt x)%Q) →
  Forall has_coordinates cities →
  build_distance_matrix sqrt cities = Return m →
  __init__ m n_ants a b rho q = Ok self →
  (∀ c, c ∈ tour → 0 ≤ c < len cities) →
  well_formed self
  ∧ num_cities self = len cities
  ∧ ∃ d, calculate_distance self tour = Ok d ∧ (0 <= d)%Q.
Proof.
  intros Hnn Hall Hrun [= <-] Htour.
  destruct (build_distance_matrix_filled sqrt cities Hall) as (m' & Hrun' & Hsq & Hm).
  rewrite Hrun in Hrun'. injection Hrun' as <-.
  assert (len m = len cities) as Hlen by (destruct Hsq as [Hl _]; unfold len; lia).
  assert (well_formed (Engine m (len m) n_ants a b rho q (ones (len m)) None Inf []))
    as Hwf.
  { split; cbn [num_cities distance_matrix pheromones]; [done| |].
    - unfold len. rewrite Nat2Z.id. destruct Hsq as [Hl Hrows].
      split; [done|]. intros row Hrow. rewrite Hl. by apply Hrows.
    - apply square_ones, len_nonneg. }
  split_and!; [done|done|].
  destruct (calculate_distance_valid _ tour Hwf) as (d & Hd & Hd0).
  { intros c Hc. cbn [num_cities]. rewrite Hlen.
    rewrite norm_index_range by (by apply Htour). by eexists. }
  exists d. split; [done|]. apply Hd0. cbn [distance_matrix].
  intros i j v Hv. rewrite (getitem2_square (length cities)) in Hv by done.
  destruct (norm_index (Z.of_nat (length cities)) i) as [r|] eqn:Hi; [|done].
  destruct (norm_index (Z.of_nat (length cities)) j) as [c|] eqn:Hj; [|done].
  apply norm_index_lt in Hi, Hj.
  destruct (Hm r c Hi Hj) as (w & Hw & H1 & H2). rewrite Hw in Hv.
  injection Hv as <-.
  destruct (decide (r = c)) as [->|Hne].
  - rewrite H2 by (by intros ?). apply Qle_refl.
  - rewrite H1 by done. apply Hnn.
Qed.

End DistanceMore.

(** * The driver (src/app.py)

    The session state of the application and the block of the script that
    runs one generation per run of the script (app.py 207-222).  The
    engine held by the session is one object: what a call changes in it
    stays changed also when the call raises. *)

Inductive app_error : Type :=
| AttributeError
| EngineError (x : exn).

Record session : Type := Session {
  aco : option engine;
  iteration : Z;
  s_best_tour : option (list Z);
  s_best_distance : option ext;
  s_avg_distance : option Q;
  s_distance_matrix : list (list Q);
  running : bool
}.

(** The Start button (app.py 149-158). *)
Definition on_start (num_ants : Z) (alpha beta evaporation : Q) (s : session)
  : session :=
  match __init__ (s_distance_matrix s) num_ants alpha beta evaporation 100 with
  | Ok e =>
      Session (Some e) 0 None None (s_avg_distance s) (s_distance_matrix s) true
  | Raise _ => s
  end.

(** The Reset button (app.py 160-166), up to the rerun it asks for. *)
Definition on_reset (s : session) : session :=
  Session None 0 None None (s_avg_distance s) (s_distance_matrix s) false.

Section App.

Context {rng : Type}.
Variable choice : list Z → list Q → St rng Z.
Variable fpow : Q → Q → Q.

(** The run block; it returns [true] when it asks for a rerun. *)
Definition run_block (start_idx end_idx max_iterations : Z)
    (s : session) (g : rng) : (app_error + bool) * session * rng :=
  if running s && (iteration s <? max_iterations) then
    match aco s with
    | None => (inl AttributeError, s, g)
    | Some e =>
        match run_iteration choice fpow start_idx end_idx (e, g) with
        | (Ok (best_tour, best_distance, avg_distance), (e', g')) =>
            let iteration' := iteration s + 1 in
            (inr true,
             Session (Some e') iteration' best_tour (Some best_distance)
                     (Some avg_distance) (s_distance_matrix s)
                     (if max_iterations <=? iteration' then false else running s),
             g')
        | (Raise x, (e', g')) =>
            (inl (EngineError x),
             Session (Some e') (iteration s) (s_best_tour s) (s_best_distance s)
                     (s_avg_distance s) (s_distance_matrix s) (running s),
             g')
        end
    end
  else (inr false, s, g).

(** [k] runs of the script with no button pressed, up to the first that
    raises. *)
Fixpoint script_runs (k : nat) (start_idx end_idx max_iterations : Z)
    (s : session) (g : rng) : (app_error + unit) * session * rng :=
  match k with
  | O => (inr tt, s, g)
  | S k' =>
      match run_block start_idx end_idx max_iterations s g with
      | (inr _, s', g') => script_runs k' start_idx end_idx max_iterations s' g'
      | (inl x, s', g') => (inl x, s', g')
      end
  end.

(** The state of a session [j] runs after Start. *)
Record started (max_iterations : Z) (j : Z) (s : session) : Prop := {
  started_iteration : iteration s = Z.min j max_iterations;
  started_running : running s = bool_decide (j < max_iterations);
  started_engine :
    ∃ e, aco s = Some e ∧ len (history e) = iteration s
         ∧ (0 < iteration s →
            s_best_distance s = Some (best_distance e)
            ∧ s_best_tour s = best_tour e)
}.

Lemma run_block_started start_idx end_idx max_iterations j s g r s' g' :
  0 ≤ j → 1 ≤ max_iterations →
  started max_iterations j s →
  run_block start_idx end_idx max_iterations s g = (inr r, s', g') →
  started max_iterations (j + 1) s'
  ∧ r = bool_decide (j < max_iterations).
Proof.
  intros Hj Hmax [Hit Hrun (e & He & Hlen & Hbest)]. unfold run_block.
  rewrite Hrun, He.
  destruct (decide (j < max_iterations)) as [Hlt|Hge].
  - rewrite bool_decide_eq_true_2 by done.
    assert ((iteration s <? max_iterations) = true) as -> by lia.
    cbn [andb].
    destruct (run_iteration choice fpow start_idx end_idx (e, g))
      as [[[[bt bd] avg]|x] [e' g1]] eqn:Hcall; [|done].
    intros [= <- <- <-]. split; [|done].
    pose proof (run_iteration_best _ _ _ _ _ _ _ _ _ Hcall) as (Hh & _).
    apply run_iteration_phases in Hcall as (ra & e1 & Ha & Hrest).
    destruct ra as [all_tours|y]; [|by destruct Hrest].
    destruct Hrest as (ru & e2 & Hu & Hrest).
    destruct ru as [[]|y]; [|by destruct Hrest].
    destruct Hrest as [-> Heq]. injection Heq as -> -> _.
    split; cbn [iteration running aco s_best_distance s_best_tour].
    + lia.
    + destruct (decide (j + 1 < max_iterations)).
      * rewrite bool_decide_eq_true_2 by done.
        by assert ((max_iterations <=? iteration s + 1) = false) as -> by lia.
      * rewrite bool_decide_eq_false_2 by done.
        by assert ((max_iterations <=? iteration s + 1) = true) as -> by lia.
    + eexists. split; [done|]. split; [|done].
      rewrite Hh, len_app. unfold len at 2. simpl. lia.
  - rewrite bool_decide_eq_false_2 by done. cbn [andb].
    intros [= <- <- <-]. split; [|done].
    split.
    + lia.
    + rewrite Hrun. rewrite !bool_decide_eq_false_2 by lia. done.
    + by exists e.
Qed.

(** X22. After Start, [k] runs of the script that do not raise have
    called [run_iteration] [min(k, max_iterations)] times: this is the
    iteration count and the length of the engine's history; the session
    is running exactly while [k < max_iterations], and shows the engine's
    best tour and distance once a generation has run. *)
Theorem script_runs_budget (num_ants : Z) (alpha beta evaporation : Q)
    (start_idx end_idx max_iterations : Z) (k : nat)
    (s0 : session) (g : rng) (s' : session) (g' : rng) :
  1 ≤ max_iterations →
  script_runs k start_idx end_idx max_iterations
              (on_start num_ants alpha beta evaporation s0) g
  = (inr tt, s', g') →
  iteration s' = Z.min (Z.of_nat k) max_iterations
  ∧ running s' = bool_decide (Z.of_nat k < max_iterations)
  ∧ ∃ e, aco s' = Some e
         ∧ len (history e) = iteration s'
         ∧ (0 < iteration s' →
            s_best_distance s' = Some (best_distance e)
            ∧ s_best_tour s' = best_tour e).
Proof.
  intros Hmax.
  assert (∀ k j s g, 0 ≤ j → started max_iterations j s →
            script_runs k start_idx end_idx max_iterations s g = (inr tt, s', g') →
            started max_iterations (j + Z.of_nat k) s') as Hgen.
  { clear k g. induction k as [|k IH]; intros j s g Hj Hs; cbn [script_runs].
    - intros [= <- <-]. by rewrite Z.add_0_r.
    - destruct (run_block start_idx end_idx max_iterations s g)
        as [[[x|r] s1] g1] eqn:Hb; [done|].
      apply (run_block_started _ _ _ j) in Hb as [Hs1 _]; [|done..].
      intros Hrest. apply (IH (j + 1)) in Hrest; [|lia|done].
      by replace (j + Z.of_nat (S k)) with (j + 1 + Z.of_nat k) by lia. }
  intros Hrun. apply (Hgen k 0) in Hrun as [H1 H2 H3]; [done|done|].
  split; cbn.
  - lia.
  - by rewrite bool_decide_eq_true_2 by lia.
  - eexists. split; [done|]. split; [done|]. lia.
Qed.

End App.

(** * Concrete runs of the further properties *)

Lemma rect_matrix_square : square 4 rect_matrix.
Proof. apply rect_engine_well_formed. Qed.

Lemma rect_matrix_cells i j :
  match norm_index (Z.of_nat 4) i, norm_index (Z.of_nat 4) j with
  | Some r, Some c =>
      ∃ v w, entry rect_matrix r c = Some v ∧ entry rect_matrix c r = Some w
             ∧ v = w ∧ (0 <= v)%Q
  | _, _ => True
  end.
Proof.
  destruct (norm_index (Z.of_nat 4) i) as [r|] eqn:Hi; [|done].
  destruct (norm_index (Z.of_nat 4) j) as [c|] eqn:Hj; [|done].
  apply norm_index_lt in Hi, Hj.
  destruct r as [|[|[|[|r]]]]; try lia;
    destruct c as [|[|[|[|c]]]]; try lia; by eexists _, _.
Qed.

Lemma rect_matrix_nonneg i j v :
  getitem2 (distance_matrix rect_engine) i j = Ok v → (0 <= v)%Q.
Proof.
  cbn [distance_matrix rect_engine].
  rewrite (getitem2_square 4) by apply rect_matrix_square.
  pose proof (rect_matrix_cells i j) as H.
  destruct (norm_index (Z.of_nat 4) i) as [r|]; [|done].
  destruct (norm_index (Z.of_nat 4) j) as [c|]; [|done].
  destruct H as (x & w & -> & _ & _ & Hx). by intros [= <-].
Qed.

(** The engine with a pheromone matrix of zeros: every weight is 0, and
    the concrete source rejects the probabilities. *)
Definition faded_engine : engine := set_pheromones rect_engine (zeros 4).

Lemma faded_engine_well_formed : well_formed faded_engine.
Proof.
  split; [reflexivity|apply rect_matrix_square|]. apply (square_zeros 4).
Qed.

Lemma construct_solution_length_witness :
  len [0; 1; 3; 2] = Z.max (num_cities rect_engine) 2.
Proof.
  apply (construct_solution_length np_choice pow_int rect_engine 0 2 42
           [0; 1; 3; 2] 1116302264).
  vm_compute. reflexivity.
Defined.

Lemma construct_solution_same_city_witness :
  ∃ body,
    [0; 2; 3; 0] = body ++ [0]
    ∧ head body = Some 0
    ∧ NoDup body
    ∧ len body = num_cities rect_engine - 1
    ∧ ∃ missing, 0 ≤ missing < num_cities rect_engine ∧ missing ∉ [0; 2; 3; 0].
Proof.
  apply (construct_solution_same_city np_choice pow_int rect_engine 0 0
           np_choice_elem 42 [0; 2; 3; 0] 1116302264).
  - reflexivity.
  - simpl. lia.
  - simpl. lia.
  - vm_compute. reflexivity.
Defined.

Lemma calculate_distance_nonneg_witness :
  ∃ d, calculate_distance rect_engine [0; 1; 3; 2] = Ok d ∧ (0 <= d)%Q.
Proof.
  apply (calculate_distance_nonneg rect_engine [0; 1; 3; 2]).
  - exact rect_engine_well_formed.
  - intros c Hc.
    repeat (apply elem_of_cons in Hc as [->|Hc]; [by eexists|]).
    by apply elem_of_nil in Hc.
  - exact rect_matrix_nonneg.
Defined.

Lemma construct_solution_raises_witness : sampler_raises np_choice ValueError.
Proof.
  apply (construct_solution_raises np_choice pow_int np_choice_elem
           faded_engine 0 2 42 ValueError 42).
  - exact faded_engine_well_formed.
  - simpl. lia.
  - vm_compute. reflexivity.
Defined.

Lemma run_iteration_returns_state_witness :
  Some [0; 1; 3; 2] = best_tour rect_engine_1
  ∧ Real 11 = best_distance rect_engine_1
  ∧ last (history rect_engine_1) = Some (Real 11)
  ∧ length (history rect_engine_1) = S (length (history rect_engine)).
Proof.
  apply (run_iteration_returns_state np_choice pow_int 0 2 rect_engine 42
           (Some [0; 1; 3; 2]) (Real 11) (33 # 3) rect_engine_1 71666532).
  vm_compute. reflexivity.
Defined.

Lemma run_iteration_best_le_tours_witness :
  ∃ all_tours e1,
    ants np_choice pow_int (Z.to_nat (num_ants rect_engine)) 0 2 []
         (rect_engine, 42) = (Ok all_tours, (e1, 71666532))
    ∧ length all_tours = Z.to_nat (num_ants rect_engine)
    ∧ Forall (λ td : list Z * Q, ext_le (Real 11) (Real td.2)) all_tours.
Proof.
  apply (run_iteration_best_le_tours np_choice pow_int 0 2 rect_engine 42
           (Some [0; 1; 3; 2]) (Real 11) (33 # 3) rect_engine_1 71666532).
  vm_compute. reflexivity.
Defined.

(** The rectangle engine without ants. *)
Definition idle_engine : engine :=
  Engine rect_matrix 4 0 1 2 (1 # 2) 100 (ones 4) None Inf [].

Lemma run_iteration_no_ants_witness :
  ∃ avg self',
    run_iteration np_choice pow_int 0 2 (idle_engine, 42)
    = (Ok (best_tour idle_engine, best_distance idle_engine, avg), (self', 42))
    ∧ best_tour self' = best_tour idle_engine
    ∧ best_distance self' = best_distance idle_engine
    ∧ history self' = history idle_engine ++ [best_distance idle_engine]
    ∧ pheromones self'
      = map (map (λ p, p * (1 - evaporation_rate idle_engine))%Q)
            (pheromones idle_engine).
Proof.
  apply (run_iteration_no_ants np_choice pow_int 0 2 idle_engine 42).
  simpl. lia.
Defined.

Lemma configuration_kept_witness :
  distance_matrix rect_engine_1 = distance_matrix rect_engine
  ∧ num_cities rect_engine_1 = num_cities rect_engine
  ∧ num_ants rect_engine_1 = num_ants rect_engine
  ∧ alpha rect_engine_1 = alpha rect_engine
  ∧ beta rect_engine_1 = beta rect_engine
  ∧ evaporation_rate rect_engine_1 = evaporation_rate rect_engine
  ∧ Q_ rect_engine_1 = Q_ rect_engine.
Proof.
  apply (configuration_kept np_choice pow_int any_call rect_engine 1 rect_engine_1).
  apply rect_engine_after_one_call. exact I.
Defined.

Lemma best_distance_is_tour_length_witness : best_consistent rect_engine_1.
Proof.
  apply (best_distance_is_tour_length np_choice pow_int
           rect_matrix 3 1%Q 2%Q (1 # 2)%Q 100%Q rect_engine 1 rect_engine_1).
  - reflexivity.
  - apply rect_engine_after_one_call. exact I.
Defined.

Lemma run_iteration_raises_witness :
  sampler_raises np_choice ValueError
  ∧ pheromones faded_engine = pheromones faded_engine
  ∧ history faded_engine = history faded_engine.
Proof.
  apply (run_iteration_raises np_choice pow_int np_choice_elem 0 2
           faded_engine 42 ValueError faded_engine 42).
  - exact faded_engine_well_formed.
  - simpl. lia.
  - simpl. lia.
  - vm_compute. reflexivity.
Defined.

Lemma best_tour_permutation_witness :
  [0; 1; 3; 2] ≡ₚ range (len rect_matrix) ∧ NoDup [0; 1; 3; 2].
Proof.
  apply (best_tour_permutation np_choice pow_int np_choice_elem
           rect_matrix 3 1%Q 2%Q (1 # 2)%Q 100%Q rect_engine 1 rect_engine_1).
  - reflexivity.
  - apply rect_engine_after_one_call. repeat split; simpl; lia.
  - vm_compute. reflexivity.
Defined.

Lemma update_pheromones_raises_iff_witness :
  ((∃ x self', update_pheromones [([0; 7], 5%Q)] rect_engine = (Raise x, self'))
   ↔ ∃ tour d c, (tour, d) ∈ [([0; 7], 5%Q)] ∧ (2 ≤ length tour)%nat
                 ∧ c ∈ tour ∧ norm_index (Z.of_nat 4) c = None)
  ∧ ∀ x self', update_pheromones [([0; 7], 5%Q)] rect_engine = (Raise x, self') →
      x = IndexError.
Proof.
  apply (update_pheromones_raises_iff 4 rect_engine [([0; 7], 5%Q)]).
  - apply (square_ones 4). lia.
  - repeat constructor. simpl. discriminate.
Defined.

Lemma update_pheromones_not_undone_witness :
  update_pheromones [([0; 7; 1], 5%Q)] rect_engine
  = (Raise IndexError,
     set_pheromones rect_engine
       (map (map (λ p, p * (1 - evaporation_rate rect_engine))%Q)
            (pheromones rect_engine))).
Proof.
  apply (update_pheromones_not_undone 4 rect_engine 0 7 [1] 5%Q []).
  - apply (square_ones 4). lia.
  - discriminate.
  - right. reflexivity.
Defined.

Lemma select_next_city_unvisited_witness :
  ((1 ∉ ({[0]} : gset Z)) ∧ 1 ≠ 2 ∧ 0 ≤ 1 < num_cities rect_engine)
  ∨ (1 = 2 ∧ 1250496027 = 42
     ∧ ∀ city, 0 ≤ city < num_cities rect_engine → city ≠ 2 →
         city ∈ ({[0]} : gset Z)).
Proof.
  apply (select_next_city_unvisited np_choice pow_int rect_engine 0 {[0]} 2
           42 1 1250496027 np_choice_elem).
  vm_compute. reflexivity.
Defined.

(** The square root rounded down to a whole number: an instance of
    [sqrt] that computes. *)
Definition isqrt (x : Q) : Q := inject_Z (Z.sqrt (Qfloor x)).

Lemma isqrt_proper x y : (x == y)%Q → (isqrt x == isqrt y)%Q.
Proof. intros H. unfold isqrt. by rewrite H. Qed.

Lemma isqrt_nonneg x : (0 <= isqrt x)%Q.
Proof.
  unfold isqrt. change 0%Q with (inject_Z 0). rewrite <- Zle_Qle.
  apply Z.sqrt_nonneg.
Qed.

Definition origin : gmap string Q := {[ "lat" := 0%Q; "lon" := 0%Q ]}.
Definition corner : gmap string Q := {[ "lat" := 3%Q; "lon" := 4%Q ]}.
Definition no_longitude : gmap string Q := {[ "lat" := 3%Q ]}.

Lemma origin_corner_coordinates : Forall has_coordinates [origin; corner].
Proof. repeat constructor; by eexists. Qed.

Lemma origin_moderate : moderate origin.
Proof.
  intros key v [-> | ->] Hv; vm_compute in Hv; injection Hv as <-;
    split; discriminate.
Qed.

Lemma corner_moderate : moderate corner.
Proof.
  intros key v [-> | ->] Hv; vm_compute in Hv; injection Hv as <-;
    split; discriminate.
Qed.

Lemma no_longitude_moderate : moderate no_longitude.
Proof.
  intros key v [-> | ->] Hv; vm_compute in Hv; [|discriminate].
  injection Hv as <-. split; discriminate.
Qed.

Lemma build_distance_matrix_entries_witness :
  ∃ m, build_distance_matrix isqrt [origin; corner] = Return m
       ∧ square (length [origin; corner]) m
       ∧ ∀ r c, (r < length [origin; corner])%nat →
           (c < length [origin; corner])%nat →
           entry m r c
           = Some (if decide (r = c) then 0%Q
                   else euclid isqrt [origin; corner] r c).
Proof.
  apply (build_distance_matrix_entries isqrt [origin; corner]).
  - exact origin_corner_coordinates.
  - constructor; [exact origin_moderate|].
    constructor; [exact corner_moderate|]. constructor.
Defined.

Lemma build_distance_matrix_symmetric_witness :
  ∃ v w, entry [[0; 5]; [5; 0]]%Q 0 1 = Some v
         ∧ entry [[0; 5]; [5; 0]]%Q 1 0 = Some w
         ∧ (v == w)%Q ∧ (0 <= v)%Q.
Proof.
  apply (build_distance_matrix_symmetric isqrt [origin; corner]
           [[0; 5]; [5; 0]]%Q 0 1 isqrt_proper isqrt_nonneg
           origin_corner_coordinates).
  - vm_compute. reflexivity.
  - simpl. lia.
  - simpl. lia.
Defined.

Lemma build_distance_matrix_key_error_witness :
  ((∃ m, build_distance_matrix isqrt [origin; no_longitude] = Return m)
   ↔ Forall has_coordinates [origin; no_longitude])
  ∧ ∀ e, build_distance_matrix isqrt [origin; no_longitude] = Throw e →
      ∃ key, e = KeyError key ∧ (key = "lat" ∨ key = "lon").
Proof.
  apply (build_distance_matrix_key_error isqrt [origin; no_longitude]).
  - simpl. lia.
  - constructor; [exact origin_moderate|].
    constructor; [exact no_longitude_moderate|]. constructor.
Defined.

Lemma build_distance_matrix_small_witness :
  build_distance_matrix isqrt [no_longitude] = Return (zeros (len [no_longitude])).
Proof.
  apply (build_distance_matrix_small isqrt [no_longitude]).
  simpl. lia.
Defined.

Lemma built_matrix_engine_witness :
  well_formed (Engine [[0; 5]; [5; 0]]%Q 2 3 1 2 (1 # 2) 100 (ones 2) None Inf [])
  ∧ num_cities (Engine [[0; 5]; [5; 0]]%Q 2 3 1 2 (1 # 2) 100 (ones 2) None Inf [])
    = len [origin; corner]
  ∧ ∃ d, calculate_distance
           (Engine [[0; 5]; [5; 0]]%Q 2 3 1 2 (1 # 2) 100 (ones 2) None Inf [])
           [0; 1] = Ok d
         ∧ (0 <= d)%Q.
Proof.
  apply (built_matrix_engine isqrt [origin; corner] [[0; 5]; [5; 0]]%Q
           3 1%Q 2%Q (1 # 2)%Q 100%Q _ [0; 1] isqrt_nonneg
           origin_corner_coordinates).
  - vm_compute. reflexivity.
  - reflexivity.
  - intros c Hc.
    repeat (apply elem_of_cons in Hc as [->|Hc]; [unfold len; simpl; lia|]).
    by apply elem_of_nil in Hc.
Defined.

(** A session before Start, holding the rectangle's matrix. *)
Definition fresh_session : session :=
  Session None 0 None None None rect_matrix false.

Lemma script_runs_budget_witness :
  iteration (script_runs np_choice pow_int 3 0 2 2
               (on_start 3 1 2 (1 # 2) fresh_session) 42).1.2
  = Z.min (Z.of_nat 3) 2
  ∧ running (script_runs np_choice pow_int 3 0 2 2
               (on_start 3 1 2 (1 # 2) fresh_session) 42).1.2
    = bool_decide (Z.of_nat 3 < 2)
  ∧ ∃ e, aco (script_runs np_choice pow_int 3 0 2 2
                (on_start 3 1 2 (1 # 2) fresh_session) 42).1.2 = Some e
         ∧ len (history e)
           = iteration (script_runs np_choice pow_int 3 0 2 2
                          (on_start 3 1 2 (1 # 2) fresh_session) 42).1.2
         ∧ (0 < iteration (script_runs np_choice pow_int 3 0 2 2
                             (on_start 3 1 2 (1 # 2) fresh_session) 42).1.2 →
            s_best_distance (script_runs np_choice pow_int 3 0 2 2
                               (on_start 3 1 2 (1 # 2) fresh_session) 42).1.2
            = Some (best_distance e)
            ∧ s_best_tour (script_runs np_choice pow_int 3 0 2 2
                             (on_start 3 1 2 (1 # 2) fresh_session) 42).1.2
              = best_tour e).
Proof.
  apply (script_runs_budget np_choice pow_int 3 1 2 (1 # 2) 0 2 2 3
           fresh_session 42 _ 1108520142).
  - lia.
  - vm_compute. reflexivity.
Defined.
